(** * Computer-System: the proxy's LRU cache and the segregated-list allocator

    A shallow embedding of [src/Proxy/cache.c] and [src/Malloc/mm.c], with
    the properties of the specification proved (or refuted) against it.

    C integers are integers of [Z] with their wrap-around written out;
    pointers are addresses in [Z] with [NULL = 0]. *)

From Stdlib Require Import ZArith Lia List String Bool.
From Stdlib.Strings Require Import Byte.
From stdpp Require Import gmap strings list fin_maps.

Open Scope Z_scope.

#[local] Set Warnings "-clear-no-such-hyp".

(** ** C integer conversions *)

Module CInt.

Definition UINT_MAX : Z := 4294967295.
Definition INT_MAX : Z := 2147483647.
Definition INT_MIN : Z := -2147483648.

(** Conversion to [unsigned int]: reduction modulo [2^32]. *)
Definition to_uint (z : Z) : Z := z mod 4294967296.

(** Conversion to [size_t] (64-bit): reduction modulo [2^64]. *)
Definition to_size_t (z : Z) : Z := z mod 18446744073709551616.

Definition is_int (z : Z) : Prop := INT_MIN <= z <= INT_MAX.
Definition is_uint (z : Z) : Prop := 0 <= z <= UINT_MAX.

End CInt.

(** ** Outcomes of running C code

    [Fault] is an invalid memory access (null or dangling pointer, or a copy
    past the end of a buffer), [Blocked] is a [P] on a semaphore that is 0
    with no other thread to release it, [Diverge] is a loop that does not
    terminate. *)

Inductive res (A : Type) : Type :=
| Ok (a : A)
| Fault
| Blocked
| Diverge.

Arguments Ok {A} a.
Arguments Fault {A}.
Arguments Blocked {A}.
Arguments Diverge {A}.

Definition bind {A B : Type} (c : res A) (k : A -> res B) : res B :=
  match c with
  | Ok a => k a
  | Fault => Fault
  | Blocked => Blocked
  | Diverge => Diverge
  end.

#[global] Instance res_bind : MBind res := fun A B k c => bind c k.
#[global] Instance res_ret : MRet res := fun A a => Ok a.

(** ** The cache of [src/Proxy/cache.c] *)

Module Cache.

Import CInt.

Abbreviation ptr := Z.
Definition NULL : ptr := 0.

(** [struct cache_block] of cache.h. The three owned buffers ([host],
    [uri], [payload]) are held by value: a C string is the sequence of
    characters before its terminator, so [strcmp] is equality. *)
Record cache_block : Type := mk_block {
  payload_size : Z;
  host : string;
  uri : string;
  next_cache_block : ptr;
  prev_cache_block : ptr;
  payload : list byte
}.

(** [struct proxy_cache] of cache.h; a semaphore is its counter. *)
Record proxy_cache : Type := mk_cache {
  space : Z;
  max_object_size : Z;
  root : ptr;
  readcnt : Z;
  mutex_read : Z;
  mutex_write : Z
}.

(** The memory the cache functions work on: the cache structure that
    [my_cache] points to and the [cache_block]s allocated by [Malloc], by
    address. *)
Record world : Type := mk_world {
  cache : proxy_cache;
  store : gmap Z cache_block
}.

Definition set_space (v : Z) (c : proxy_cache) : proxy_cache :=
  mk_cache v (max_object_size c) (root c) (readcnt c) (mutex_read c) (mutex_write c).
Definition set_root (v : ptr) (c : proxy_cache) : proxy_cache :=
  mk_cache (space c) (max_object_size c) v (readcnt c) (mutex_read c) (mutex_write c).
Definition set_readcnt (v : Z) (c : proxy_cache) : proxy_cache :=
  mk_cache (space c) (max_object_size c) (root c) v (mutex_read c) (mutex_write c).
Definition set_mutex_read (v : Z) (c : proxy_cache) : proxy_cache :=
  mk_cache (space c) (max_object_size c) (root c) (readcnt c) v (mutex_write c).
Definition set_mutex_write (v : Z) (c : proxy_cache) : proxy_cache :=
  mk_cache (space c) (max_object_size c) (root c) (readcnt c) (mutex_read c) v.

Definition set_next (v : ptr) (b : cache_block) : cache_block :=
  mk_block (payload_size b) (host b) (uri b) v (prev_cache_block b) (payload b).
Definition set_prev (v : ptr) (b : cache_block) : cache_block :=
  mk_block (payload_size b) (host b) (uri b) (next_cache_block b) v (payload b).

Definition with_cache (f : proxy_cache -> proxy_cache) (w : world) : world :=
  mk_world (f (cache w)) (store w).

(** Reading [p->field]: a fault when [p] is null or not allocated. *)
Definition load (w : world) (p : ptr) : res cache_block :=
  if p =? NULL then Fault
  else match store w !! p with
       | Some b => Ok b
       | None => Fault
       end.

(** Writing [p->field = v]. *)
Definition update (w : world) (p : ptr) (f : cache_block -> cache_block) : res world :=
  b ← load w p;
  Ok (mk_world (cache w) (<[p := f b]> (store w))).

(** Semaphores ([P] and [V] of csapp), run by a single thread. *)
Definition P (get : proxy_cache -> Z) (set : Z -> proxy_cache -> proxy_cache)
    (w : world) : res world :=
  if 0 <? get (cache w) then Ok (with_cache (set (get (cache w) - 1)) w)
  else Blocked.

Definition V (get : proxy_cache -> Z) (set : Z -> proxy_cache -> proxy_cache)
    (w : world) : res world :=
  Ok (with_cache (set (get (cache w) + 1)) w).

(** [memcpy(dst, src, n)] on buffers given by their contents: the first
    [n] bytes of [dst] are replaced by those of [src]; [n] is a [size_t].
    Copying more bytes than either buffer holds is a fault. *)
Definition memcpy (dst src : list byte) (n : Z) : res (list byte) :=
  let k := Z.to_nat (to_size_t n) in
  if (Nat.leb k (length src) && Nat.leb k (length dst))%bool
  then Ok (take k src ++ drop k dst)
  else Fault.

(** [init_cache]. [m] tells whether [Malloc] found room for the structure;
    the result is the new cache, or [None] for a null pointer. *)
Definition init_cache (m : bool) (max_cache_size input_max_object_size : Z)
    : option world :=
  if m then
    Some (mk_world
            (mk_cache (to_uint max_cache_size) (to_uint input_max_object_size)
                      NULL 0 1 1)
            ∅)
  else None.

(** [create_block]. [p] is what the [Malloc] calls return: the address of
    the new block, or [NULL] when one of them fails. The payload buffer of
    [size] bytes is filled by [memcpy]. *)
Definition create_block (w : world) (p : ptr) (input_host input_uri : string)
    (buffer : list byte) (size : Z) : res (ptr * world) :=
  if p =? NULL then Ok (NULL, w)
  else
    pl ← memcpy (repeat "000"%byte (Z.to_nat (to_size_t size))) buffer size;
    Ok (p, mk_world (cache w)
             (<[p := mk_block size input_host input_uri NULL NULL pl]> (store w))).

(** [free_block]: the block and its buffers are released. *)
Definition free_block (w : world) (p : ptr) : res world :=
  _ ← load w p;
  Ok (mk_world (cache w) (delete p (store w))).

(** [insert_block]. *)
Definition insert_block (w : world) (block_ptr : ptr) : res world :=
  w ← (if root (cache w) =? NULL then
          w ← Ok (with_cache (set_root block_ptr) w);
          w ← update w block_ptr (set_next NULL);
          update w block_ptr (set_prev NULL)
        else
          w ← update w block_ptr (set_prev NULL);
          w ← update w block_ptr (set_next (root (cache w)));
          w ← update w (root (cache w)) (set_prev block_ptr);
          Ok (with_cache (set_root block_ptr) w));
  b ← load w block_ptr;
  Ok (with_cache (set_space (to_uint (space (cache w) - payload_size b))) w).

(** [remove_block]. *)
Definition remove_block (w : world) (block_ptr : ptr) : res world :=
  b ← load w block_ptr;
  w ← (if prev_cache_block b =? NULL then
          Ok (with_cache (set_root (next_cache_block b)) w)
        else
          update w (prev_cache_block b) (set_next (next_cache_block b)));
  b ← load w block_ptr;
  w ← (if negb (next_cache_block b =? NULL) then
          update w (next_cache_block b) (set_prev (prev_cache_block b))
        else Ok w);
  b ← load w block_ptr;
  Ok (with_cache (set_space (to_uint (space (cache w) + payload_size b))) w).

(** [search_block]: the [for] loop, started at [block_ptr]. *)
Fixpoint search_from (fuel : nat) (w : world) (block_ptr : ptr)
    (input_host input_uri : string) : res ptr :=
  match fuel with
  | O => Diverge
  | S fuel =>
      if block_ptr =? NULL then Ok NULL
      else
        b ← load w block_ptr;
        if (String.eqb (host b) input_host && String.eqb (uri b) input_uri)%bool
        then Ok block_ptr
        else search_from fuel w (next_cache_block b) input_host input_uri
  end.

(** A walk along [next_cache_block] that stays in the store visits at most
    [size (store w)] blocks before it ends or repeats one: with this much
    fuel [Diverge] is only returned for a loop that does not terminate. *)
Definition enough (w : world) : nat := S (size (store w)).

Definition search_block (w : world) (input_host input_uri : string) : res ptr :=
  search_from (enough w) w (root (cache w)) input_host input_uri.

(** [read_cache_block]. *)
Definition read_cache_block (w : world) (block_ptr : ptr) (buffer : list byte)
    : res (Z * list byte) :=
  if block_ptr =? NULL then Ok (-1, buffer)
  else
    b ← load w block_ptr;
    buffer ← memcpy buffer (payload b) (payload_size b);
    Ok (payload_size b, buffer).

(** [lru_update]. *)
Definition lru_update (w : world) (block_ptr : ptr) : res world :=
  w ← P mutex_write set_mutex_write w;
  w ← remove_block w block_ptr;
  w ← insert_block w block_ptr;
  V mutex_write set_mutex_write w.

(** [get_lru]: the [while] loop, started at [block_ptr]. *)
Fixpoint last_from (fuel : nat) (w : world) (block_ptr : ptr) : res ptr :=
  match fuel with
  | O => Diverge
  | S fuel =>
      b ← load w block_ptr;
      if negb (next_cache_block b =? NULL)
      then last_from fuel w (next_cache_block b)
      else Ok block_ptr
  end.

Definition get_lru (w : world) : res ptr :=
  if root (cache w) =? NULL then Ok NULL
  else last_from (enough w) w (root (cache w)).

(** [eviction]. *)
Definition eviction (w : world) : res world :=
  lru_block ← get_lru w;
  w ← remove_block w lru_block;
  free_block w lru_block.

(** The reader's entry and exit protocol of [read_cache]. *)
Definition reader_enter (w : world) : res world :=
  w ← P mutex_read set_mutex_read w;
  w ← Ok (with_cache (fun c => set_readcnt (to_uint (readcnt c + 1)) c) w);
  w ← (if readcnt (cache w) =? 1 then P mutex_write set_mutex_write w else Ok w);
  V mutex_read set_mutex_read w.

Definition reader_exit (w : world) : res world :=
  w ← P mutex_read set_mutex_read w;
  w ← Ok (with_cache (fun c => set_readcnt (to_uint (readcnt c - 1)) c) w);
  w ← (if readcnt (cache w) =? 0 then V mutex_write set_mutex_write w else Ok w);
  V mutex_read set_mutex_read w.

(** [read_cache]. [my_cache] is [None] for a null pointer. The result is
    the returned length, the memory afterwards and the caller's buffer. *)
Definition read_cache (my_cache : option world) (input_host input_uri : string)
    (buffer : list byte) : res (Z * option world * list byte) :=
  match my_cache with
  | None => Ok (-1, None, buffer)
  | Some w =>
      w ← reader_enter w;
      block_ptr ← search_block w input_host input_uri;
      if block_ptr =? NULL then
        w ← reader_exit w;
        Ok (-1, Some w, buffer)
      else
        '(read_len, buffer) ← read_cache_block w block_ptr buffer;
        w ← reader_exit w;
        w ← lru_update w block_ptr;
        Ok (read_len, Some w, buffer)
  end.

(** The eviction loop of [write_cache]:
    [while (my_cache->space < len) eviction(my_cache);]
    [space] is unsigned, so [len] is compared as an [unsigned int]. *)
Fixpoint evict_loop (fuel : nat) (w : world) (len : Z) : res world :=
  match fuel with
  | O => Diverge
  | S fuel =>
      if space (cache w) <? to_uint len then
        w ← eviction w;
        evict_loop fuel w len
      else Ok w
  end.

(** [write_cache]. [p] is the answer of [Malloc] inside [create_block]. *)
Definition write_cache (my_cache : option world) (p : ptr)
    (input_host input_uri : string) (buffer : list byte) (len : Z)
    : res (Z * option world) :=
  match my_cache with
  | None => Ok (-1, None)
  | Some w =>
      if max_object_size (cache w) <? to_uint len then Ok (-1, Some w)
      else
        w ← P mutex_write set_mutex_write w;
        w ← evict_loop (enough w) w len;
        '(block_ptr, w) ← create_block w p input_host input_uri buffer len;
        if block_ptr =? NULL then
          w ← V mutex_write set_mutex_write w;
          Ok (-1, Some w)
        else
          w ← insert_block w block_ptr;
          w ← V mutex_write set_mutex_write w;
          Ok (1, Some w)
  end.

(** The state in which [write_cache] calls [create_block]: the writer gate
    is taken and the eviction loop has run. *)
Definition make_room (w : world) (len : Z) : res world :=
  w ← P mutex_write set_mutex_write w;
  evict_loop (enough w) w len.

(** *** The list a cache holds *)

(** The addresses met from [p] along [next_cache_block]. *)
Fixpoint walk (fuel : nat) (st : gmap Z cache_block) (p : ptr) : list ptr :=
  match fuel with
  | O => []
  | S fuel =>
      if p =? NULL then []
      else match st !! p with
           | Some b => p :: walk fuel st (next_cache_block b)
           | None => []
           end
  end.

Definition chain (w : world) : list ptr :=
  walk (enough w) (store w) (root (cache w)).

(** The blocks of the cache, most recently used first. *)
Definition blocks (w : world) : list cache_block :=
  omap (fun p => store w !! p) (chain w).

(** [Σ payload_size] over blocks. *)
Definition sum_payload (l : list cache_block) : Z :=
  foldr (fun b acc => payload_size b + acc) 0 l.

(** The test of [search_block]: both [strcmp] return 0. *)
Definition has_key (h u : string) (b : cache_block) : bool :=
  (String.eqb (host b) h && String.eqb (uri b) u)%bool.

(** The number of blocks with the key [(h, u)]. *)
Definition count_key (h u : string) (l : list cache_block) : nat :=
  length (filter (fun b => has_key h u b = true) l).

End Cache.

(** ** The allocator of [src/Malloc/mm.c] *)

Module Mm.

Import CInt.

(** *** Memory *)

(** The simulated heap of memlib and the two globals of mm.c. Memory is
    byte addressed; [mem a] is the byte at address [a]. *)
Record state : Type := mk_state {
  mem : Z -> Z;
  mem_start_brk : Z;
  mem_brk : Z;
  mem_max_addr : Z;
  heap_listp : Z;
  origin : Z
}.

Definition NULL : Z := 0.

Definition set_mem (m : Z -> Z) (s : state) : state :=
  mk_state m (mem_start_brk s) (mem_brk s) (mem_max_addr s) (heap_listp s) (origin s).
Definition set_brk (v : Z) (s : state) : state :=
  mk_state (mem s) (mem_start_brk s) v (mem_max_addr s) (heap_listp s) (origin s).
Definition set_heap_listp (v : Z) (s : state) : state :=
  mk_state (mem s) (mem_start_brk s) (mem_brk s) (mem_max_addr s) v (origin s).
Definition set_origin (v : Z) (s : state) : state :=
  mk_state (mem s) (mem_start_brk s) (mem_brk s) (mem_max_addr s) (heap_listp s) v.

Definition upd (m : Z -> Z) (a v : Z) : Z -> Z :=
  fun x => if x =? a then v else m x.

(** Little-endian reads and writes of [n] bytes. *)
Fixpoint load_le (m : Z -> Z) (a : Z) (n : nat) : Z :=
  match n with
  | O => 0
  | S n => m a mod 256 + 256 * load_le m (a + 1) n
  end.

Fixpoint store_le (m : Z -> Z) (a : Z) (n : nat) (v : Z) : Z -> Z :=
  match n with
  | O => m
  | S n => store_le (upd m a (v mod 256)) (a + 1) n (v / 256)
  end.

(** *** Macros *)

Definition ALIGNMENT : Z := 8.
Definition WSIZE : Z := 4.
Definition DSIZE : Z := 8.
Definition CHUNKSIZE : Z := 168.
Definition MINIMUM_BLK_SIZE : Z := 24.
Definition MINIMUM_PAYLOAD_SIZE : Z := 16.
Definition HEADER_SIZE : Z := 8.
Definition LISTS : Z := 13.

(** [ALIGN(p)]: [((size_t)(p) + (ALIGNMENT-1)) & ~0x7], in [size_t]. *)
Definition ALIGN (p : Z) : Z :=
  Z.land (to_size_t (p + (ALIGNMENT - 1))) (18446744073709551616 - 8).

Definition MAX (x y : Z) : Z := if y <? x then x else y.

Definition PACK (size alloc : Z) : Z := Z.lor size alloc.

(** [GETW]/[PUTW] work on an [unsigned int], [GETD]/[PUTD] on a [size_t]. *)
Definition GETW (s : state) (p : Z) : Z := load_le (mem s) p 4.
Definition PUTW (s : state) (p val : Z) : state :=
  set_mem (store_le (mem s) p 4 val) s.
Definition GETD (s : state) (p : Z) : Z := load_le (mem s) p 8.
Definition PUTD (s : state) (p val : Z) : state :=
  set_mem (store_le (mem s) p 8 val) s.

(** [GETW(p) & ~0x7] and [GETW(p) & 0x1], in [unsigned int]. *)
Definition GET_SIZE (s : state) (p : Z) : Z := Z.land (GETW s p) 4294967288.
Definition GET_ALLOC (s : state) (p : Z) : Z := Z.land (GETW s p) 1.

Definition HDRP (bp : Z) : Z := bp - WSIZE.
Definition FTRP (s : state) (bp : Z) : Z := bp + GET_SIZE s (HDRP bp) - DSIZE.

Definition NEXT_BLKP (s : state) (bp : Z) : Z := bp + GET_SIZE s (bp - WSIZE).
Definition PREV_BLKP (s : state) (bp : Z) : Z := bp - GET_SIZE s (bp - DSIZE).

Definition NEXT_FREE_BLKP (s : state) (bp : Z) : Z := GETD s (bp + DSIZE).
Definition PREV_FREE_BLKP (s : state) (bp : Z) : Z := GETD s bp.
Definition SET_NEXT_FREE_BLKP (s : state) (bp n_bp : Z) : state :=
  PUTD s (bp + DSIZE) n_bp.
Definition SET_PREV_FREE_BLKP (s : state) (bp p_bp : Z) : state :=
  PUTD s bp p_bp.

Definition LIST (s : state) (list : Z) : Z := origin s + (list - 1) * DSIZE.
Definition GET_LISTP (s : state) (list : Z) : Z := GETD s (LIST s list).
Definition SET_LISTP (s : state) (list bp : Z) : state := PUTD s (LIST s list) bp.

Definition MAX_SIZE_01 : Z := 32.
Definition MAX_SIZE_02 : Z := 64.
Definition MAX_SIZE_03 : Z := 128.
Definition MAX_SIZE_04 : Z := 256.
Definition MAX_SIZE_05 : Z := 512.
Definition MAX_SIZE_06 : Z := 1024.
Definition MAX_SIZE_07 : Z := 2048.
Definition MAX_SIZE_08 : Z := 4096.
Definition MAX_SIZE_09 : Z := 8192.
Definition MAX_SIZE_10 : Z := 16384.
Definition MAX_SIZE_11 : Z := 32768.
Definition MAX_SIZE_12 : Z := 65536.

(** *** memlib *)

(** Modelled from the spec: memlib's [mem_sbrk], which is not in the
    sources. "[grow(bytes) → address] extends the heap by exactly [bytes],
    returns the address of the first new byte, or a sentinel on failure";
    the sentinel is the pointer [-1], the value [extend_heap] tests for. The
    heap cannot grow past [mem_max_addr]. *)
Definition mem_sbrk (s : state) (incr : Z) : Z * state :=
  if (incr <? 0) || (mem_max_addr s <? mem_brk s + incr)
  then (-1, s)
  else (mem_brk s, set_brk (mem_brk s + incr) s).

(** Modelled from the spec: memlib's [mem_heap_lo] and [mem_heap_hi], the
    bounds of the heap ("[bounds() → (lo, hi)]"): its first and last byte. *)
Definition mem_heap_lo (s : state) : Z := mem_start_brk s.
Definition mem_heap_hi (s : state) : Z := mem_brk s - 1.

(** [memset] and [memcpy] of the C library. The bytes they touch must be
    in the heap (the rest of the address space, and the null pointer
    first, is not mapped), and [memcpy] must not be given overlapping
    areas; [n] is a [size_t]. *)
Definition in_range (s : state) (p n : Z) : bool :=
  (mem_heap_lo s <=? p) && (p + n <=? mem_heap_hi s + 1).

Definition memset (s : state) (p c n : Z) : res state :=
  if n =? 0 then Ok s
  else if in_range s p n then
    Ok (set_mem (fun x => if (p <=? x) && (x <? p + n) then c mod 256 else mem s x) s)
  else Fault.

Definition memcpy (s : state) (dst src n : Z) : res state :=
  if n =? 0 then Ok s
  else if in_range s dst n && in_range s src n
          && ((dst + n <=? src) || (src + n <=? dst)) then
    Ok (set_mem (fun x => if (dst <=? x) && (x <? dst + n)
                          then mem s (src + (x - dst)) else mem s x) s)
  else Fault.

(** *** Utility functions *)

Definition get_list_index (a_size : Z) : Z :=
  if a_size =? 0 then 0
  else if a_size <=? MAX_SIZE_01 then 1
  else if a_size <=? MAX_SIZE_02 then 2
  else if a_size <=? MAX_SIZE_03 then 3
  else if a_size <=? MAX_SIZE_04 then 4
  else if a_size <=? MAX_SIZE_05 then 5
  else if a_size <=? MAX_SIZE_06 then 6
  else if a_size <=? MAX_SIZE_07 then 7
  else if a_size <=? MAX_SIZE_08 then 8
  else if a_size <=? MAX_SIZE_09 then 9
  else if a_size <=? MAX_SIZE_10 then 10
  else if a_size <=? MAX_SIZE_11 then 11
  else if a_size <=? MAX_SIZE_12 then 12
  else 13.

Definition insert_free_block (s : state) (bp : Z) : state :=
  let csize := GET_SIZE s (HDRP bp) in
  let list_index := get_list_index csize in
  if GET_LISTP s list_index =? NULL then
    let s := SET_LISTP s list_index bp in
    let s := SET_NEXT_FREE_BLKP s bp NULL in
    SET_PREV_FREE_BLKP s bp NULL
  else
    let s := SET_PREV_FREE_BLKP s bp NULL in
    let s := SET_NEXT_FREE_BLKP s bp (GET_LISTP s list_index) in
    let s := SET_PREV_FREE_BLKP s (GET_LISTP s list_index) bp in
    SET_LISTP s list_index bp.

Definition remove_free_block (s : state) (bp : Z) : state :=
  let csize := GET_SIZE s (HDRP bp) in
  let list_index := get_list_index csize in
  let s :=
    if PREV_FREE_BLKP s bp =? NULL then
      SET_LISTP s list_index (NEXT_FREE_BLKP s bp)
    else
      SET_NEXT_FREE_BLKP s (PREV_FREE_BLKP s bp) (NEXT_FREE_BLKP s bp) in
  if negb (NEXT_FREE_BLKP s bp =? NULL) then
    SET_PREV_FREE_BLKP s (NEXT_FREE_BLKP s bp) (PREV_FREE_BLKP s bp)
  else s.

Definition coalesce (s : state) (bp : Z) : Z * state :=
  let prev_alloc := GET_ALLOC s (FTRP s (PREV_BLKP s bp)) in
  let next_alloc := GET_ALLOC s (HDRP (NEXT_BLKP s bp)) in
  let size := GET_SIZE s (HDRP bp) in
  if negb (prev_alloc =? 0) && negb (next_alloc =? 0) then
    (bp, insert_free_block s bp)
  else if negb (prev_alloc =? 0) && (next_alloc =? 0) then
    let size := to_size_t (size + GET_SIZE s (HDRP (NEXT_BLKP s bp))) in
    let s := remove_free_block s (NEXT_BLKP s bp) in
    let s := PUTW s (HDRP bp) (PACK size 0) in
    let s := PUTW s (FTRP s bp) (PACK size 0) in
    (bp, insert_free_block s bp)
  else if (prev_alloc =? 0) && negb (next_alloc =? 0) then
    let size := to_size_t (size + GET_SIZE s (HDRP (PREV_BLKP s bp))) in
    let s := remove_free_block s (PREV_BLKP s bp) in
    let s := PUTW s (FTRP s bp) (PACK size 0) in
    let s := PUTW s (HDRP (PREV_BLKP s bp)) (PACK size 0) in
    let bp := PREV_BLKP s bp in
    (bp, insert_free_block s bp)
  else
    let size :=
      to_size_t (size + to_uint (GET_SIZE s (HDRP (PREV_BLKP s bp))
                                 + GET_SIZE s (FTRP s (NEXT_BLKP s bp)))) in
    let s := remove_free_block s (PREV_BLKP s bp) in
    let s := remove_free_block s (NEXT_BLKP s bp) in
    let s := PUTW s (HDRP (PREV_BLKP s bp)) (PACK size 0) in
    let s := PUTW s (FTRP s (NEXT_BLKP s bp)) (PACK size 0) in
    let bp := PREV_BLKP s bp in
    (bp, insert_free_block s bp).

Definition place (s : state) (bp a_size : Z) : state :=
  let csize := GET_SIZE s (HDRP bp) in
  let s := remove_free_block s bp in
  if MINIMUM_BLK_SIZE <=? to_size_t (csize - a_size) then
    let s := PUTW s (HDRP bp) (PACK a_size 1) in
    let s := PUTW s (FTRP s bp) (PACK a_size 1) in
    let bp := NEXT_BLKP s bp in
    let s := PUTW s (HDRP bp) (PACK (to_size_t (csize - a_size)) 0) in
    let s := PUTW s (FTRP s bp) (PACK (to_size_t (csize - a_size)) 0) in
    snd (coalesce s bp)
  else
    let s := PUTW s (HDRP bp) (PACK csize 1) in
    PUTW s (FTRP s bp) (PACK csize 1).

Definition extend_heap (s : state) (words : Z) : Z * state :=
  let size :=
    if negb (words mod 2 =? 0) then to_size_t ((words + 1) * WSIZE)
    else to_size_t (words * WSIZE) in
  let size := if size <? MINIMUM_BLK_SIZE then MINIMUM_BLK_SIZE else size in
  let '(bp, s) := mem_sbrk s size in
  if bp =? -1 then (NULL, s)
  else
    let s := PUTW s (HDRP bp) (PACK size 0) in
    let s := PUTW s (FTRP s bp) (PACK size 0) in
    let s := PUTW s (HDRP (NEXT_BLKP s bp)) (PACK 0 1) in
    coalesce s bp.

(** The [for] loop of [find_fit] over one list, from [bp]. *)
Fixpoint find_in_list (fuel : nat) (s : state) (bp a_size : Z) : res Z :=
  match fuel with
  | O => Diverge
  | S fuel =>
      if negb (bp =? NULL) && (0 <? GET_SIZE s (HDRP bp)) then
        if (GET_ALLOC s (HDRP bp) =? 0) && (a_size <=? GET_SIZE s (HDRP bp))
        then Ok bp
        else find_in_list fuel s (NEXT_FREE_BLKP s bp) a_size
      else Ok NULL
  end.

(** The [while] loop of [find_fit], from [list_index]; [n] bounds the number
    of lists that are left. *)
Fixpoint find_from (n : nat) (fuel : nat) (s : state) (list_index a_size : Z)
    : res Z :=
  match n with
  | O => Ok NULL
  | S n =>
      if list_index <=? LISTS then
        bp ← find_in_list fuel s (GET_LISTP s list_index) a_size;
        if negb (bp =? NULL) then Ok bp
        else find_from n fuel s (list_index + 1) a_size
      else Ok NULL
  end.

(** A free list that is not circular has fewer blocks than the heap has
    bytes. *)
Definition enough (s : state) : nat := Z.to_nat (mem_brk s - mem_start_brk s + 1).

Definition find_fit (s : state) (a_size : Z) : res Z :=
  find_from 14 (enough s) s (get_list_index a_size) a_size.

(** *** The interface *)

Definition mm_init (s : state) : Z * state :=
  let '(p, s) := mem_sbrk s (LISTS * DSIZE) in
  let s := set_origin p s in
  if origin s =? NULL then (-1, s)
  else
    let '(p, s) := mem_sbrk s (4 * WSIZE) in
    let s := set_heap_listp p s in
    if heap_listp s =? NULL then (-1, s)
    else
      let s := PUTW s (heap_listp s) 0 in
      let s := PUTW s (heap_listp s + 1 * WSIZE) (PACK DSIZE 1) in
      let s := PUTW s (heap_listp s + 2 * WSIZE) (PACK DSIZE 1) in
      let s := PUTW s (heap_listp s + 3 * WSIZE) (PACK 0 1) in
      let s := fold_left (fun s i => SET_LISTP s i NULL)
                 [1; 2; 3; 4; 5; 6; 7; 8; 9; 10; 11; 12; 13] s in
      let s := set_heap_listp (heap_listp s + 2 * WSIZE) s in
      let '(bp, s) := extend_heap s (CHUNKSIZE / WSIZE) in
      if bp =? NULL then (-1, s)
      else (0, s).

(** The heap is initialised on first use. *)
Definition ensure_init (s : state) : state :=
  if heap_listp s =? 0 then snd (mm_init s) else s.

(** The adjusted block size of [malloc]:
    [DSIZE * ((size + (DSIZE) + (DSIZE-1)) / DSIZE)], in [size_t]. *)
Definition adjust_malloc (size : Z) : Z :=
  if size <=? MINIMUM_PAYLOAD_SIZE then MINIMUM_BLK_SIZE
  else to_size_t (DSIZE * (to_size_t (size + DSIZE + (DSIZE - 1)) / DSIZE)).

Definition malloc (s : state) (size : Z) : res (Z * state) :=
  let s := ensure_init s in
  if size =? 0 then Ok (NULL, s)
  else
    let a_size := adjust_malloc size in
    bp ← find_fit s a_size;
    if negb (bp =? NULL) then Ok (bp, place s bp a_size)
    else
      let extend_size := MAX a_size CHUNKSIZE in
      let '(bp, s) := extend_heap s (extend_size / WSIZE) in
      if bp =? NULL then Ok (NULL, s)
      else Ok (bp, place s bp a_size).

Definition free (s : state) (ptr : Z) : state :=
  let s := ensure_init s in
  if ptr =? 0 then s
  else
    let size := GET_SIZE s (HDRP ptr) in
    let s := PUTW s (HDRP ptr) (PACK size 0) in
    let s := PUTW s (FTRP s ptr) (PACK size 0) in
    snd (coalesce s ptr).

(** The new block size of [realloc]: [ALIGN(size) + HEADER_SIZE]. *)
Definition adjust_realloc (size : Z) : Z :=
  if size <=? MINIMUM_PAYLOAD_SIZE then MINIMUM_BLK_SIZE
  else to_size_t (ALIGN size + HEADER_SIZE).

Definition realloc (s : state) (old_ptr size : Z) : res (Z * state) :=
  if size =? 0 then Ok (0, free s old_ptr)
  else if old_ptr =? NULL then malloc s size
  else
    let old_size := GET_SIZE s (HDRP old_ptr) in
    let new_size := adjust_realloc size in
    if new_size =? old_size then Ok (old_ptr, s)
    else if new_size <? old_size then
      if MINIMUM_BLK_SIZE <=? to_size_t (old_size - new_size) then
        let s := PUTW s (HDRP old_ptr) (PACK new_size 1) in
        let s := PUTW s (FTRP s old_ptr) (PACK new_size 1) in
        let bp := NEXT_BLKP s old_ptr in
        let s := PUTW s (HDRP bp) (PACK (to_size_t (old_size - new_size)) 0) in
        let s := PUTW s (FTRP s bp) (PACK (to_size_t (old_size - new_size)) 0) in
        Ok (old_ptr, snd (coalesce s bp))
      else Ok (old_ptr, s)
    else
      let next_alloc := GET_ALLOC s (HDRP (NEXT_BLKP s old_ptr)) in
      let next_size := GET_SIZE s (HDRP (NEXT_BLKP s old_ptr)) in
      let extend_size := to_size_t (new_size - old_size) in
      let payload_size := to_size_t (old_size - HEADER_SIZE) in
      if (next_alloc =? 0) && (extend_size <? next_size) then
        let s := remove_free_block s (NEXT_BLKP s old_ptr) in
        if MINIMUM_BLK_SIZE <=? to_size_t (next_size - extend_size) then
          let s := PUTW s (HDRP old_ptr) (PACK new_size 1) in
          let s := PUTW s (FTRP s old_ptr) (PACK new_size 1) in
          let bp := NEXT_BLKP s old_ptr in
          let s := PUTW s (HDRP bp) (PACK (to_size_t (next_size - extend_size)) 0) in
          let s := PUTW s (FTRP s bp) (PACK (to_size_t (next_size - extend_size)) 0) in
          Ok (old_ptr, snd (coalesce s bp))
        else
          let s := PUTW s (HDRP old_ptr) (PACK (to_size_t (old_size + next_size)) 1) in
          let s := PUTW s (FTRP s old_ptr) (PACK (to_size_t (old_size + next_size)) 1) in
          Ok (old_ptr, s)
      else
        '(new_ptr, s) ← malloc s size;
        if new_ptr =? 0 then Ok (NULL, s)
        else
          s ← memcpy s new_ptr old_ptr payload_size;
          Ok (new_ptr, free s old_ptr).

Definition calloc (s : state) (nmemb size : Z) : res (Z * state) :=
  let total_size := to_size_t (nmemb * size) in
  '(bp, s) ← malloc s total_size;
  s ← memset s bp 0 total_size;
  Ok (bp, s).

(** *** The heap checker: the checks of [mm_checkheap] on the blocks *)

Definition in_heap (s : state) (p : Z) : bool :=
  (p <=? mem_heap_hi s) && (mem_heap_lo s <=? p).

(** [check_block]: [true] is an error. *)
Definition check_block (s : state) (bp : Z) : bool :=
  if bp =? NULL then false
  else
    negb (in_heap s bp)
    || negb (bp mod ALIGNMENT =? 0)
    || negb (GETW s (HDRP bp) =? GETW s (FTRP s bp))
    || negb (to_uint (GET_SIZE s (HDRP bp) - HEADER_SIZE) mod ALIGNMENT =? 0)
    || (negb (bp =? heap_listp s) && (0 <? GET_SIZE s (HDRP bp))
        && (GET_SIZE s (HDRP bp) <? MINIMUM_BLK_SIZE)).

(** [check_coalesce]: [true] is an error. *)
Definition check_coalesce (s : state) (bp : Z) : bool :=
  if GET_ALLOC s (HDRP bp) =? 0 then
    let prev_alloc := GET_ALLOC s (FTRP s (PREV_BLKP s bp)) in
    let next_alloc := GET_ALLOC s (HDRP (NEXT_BLKP s bp)) in
    (prev_alloc =? 0) || (next_alloc =? 0)
  else false.

(** The walk of [mm_checkheap] over the blocks, from [bp], and its check of
    the epilogue: [Ok true] is an error. *)
Fixpoint check_blocks (fuel : nat) (s : state) (bp : Z) : res bool :=
  match fuel with
  | O => Diverge
  | S fuel =>
      if 0 <? GET_SIZE s (HDRP bp) then
        let error := check_block s bp || check_coalesce s bp in
        error' ← check_blocks fuel s (NEXT_BLKP s bp);
        Ok (error || error')
      else
        Ok (negb (GET_SIZE s (HDRP bp) =? 0) || (GET_ALLOC s (HDRP bp) =? 0))
  end.

Definition check_heap_blocks (s : state) : res bool :=
  check_blocks (enough s) s (heap_listp s).

End Mm.

(** ** The properties of the cache, stated

    The list that the links of the blocks form, the invariants of the
    cache, and the calls that the proxy makes. *)

Module CacheProps.

Import CInt Cache.

(** [seg st prev l nxt]: the addresses [l] are blocks of [st] chained in
    this order, the first one pointing back to [prev] and the last one
    forward to [nxt]. *)
Fixpoint seg (st : gmap Z cache_block) (prev : ptr) (l : list ptr) (nxt : ptr)
    : Prop :=
  match l with
  | [] => True
  | a :: l' =>
      a ≠ NULL ∧
      ∃ b, st !! a = Some b ∧ prev_cache_block b = prev ∧
           next_cache_block b = hd nxt l' ∧ seg st a l' nxt
  end.

(** [wf w l]: the list of the cache [w] is exactly [l]. *)
Record wf (w : world) (l : list ptr) : Prop := mk_wf {
  wf_root : root (cache w) = hd NULL l;
  wf_seg : seg (store w) NULL l NULL;
  wf_nodup : NoDup l
}.

(** No reader inside, both semaphores free. *)
Record quiescent (c : proxy_cache) : Prop := mk_quiescent {
  q_readcnt : readcnt c = 0;
  q_mutex_read : mutex_read c = 1;
  q_mutex_write : mutex_write c = 1
}.

(** What a block stores, apart from its links. *)
Definition data (b : cache_block) : string * string * Z * list byte :=
  (host b, uri b, payload_size b, payload b).

(** Two stores hold the same data when they differ by links only. *)
Definition same_data (st st' : gmap Z cache_block) : Prop :=
  ∀ p, data <$> st' !! p = data <$> st !! p.

(** Two cache structures agree on all but [space] and [root]. *)
Definition same_ctl (c c' : proxy_cache) : Prop :=
  max_object_size c' = max_object_size c ∧ readcnt c' = readcnt c ∧
  mutex_read c' = mutex_read c ∧ mutex_write c' = mutex_write c.

(** The store after some blocks were freed: the others keep their data. *)
Definition freed (ev : list ptr) (st st' : gmap Z cache_block) : Prop :=
  (∀ p, p ∈ ev → st' !! p = None) ∧
  (∀ p, p ∉ ev → data <$> st' !! p = data <$> st !! p).

(** The payload sizes of the blocks at the addresses [l], added up. *)
Definition sizes (st : gmap Z cache_block) (l : list ptr) : Z :=
  foldr (fun a acc => from_option payload_size 0 (st !! a) + acc) 0 l.

(** The cache between the entry and the exit protocol of a reader that
    is the only thread: one reader, the writer gate taken. *)
Definition reading (w : world) : world :=
  with_cache (fun c => set_mutex_write 0 (set_readcnt 1 c)) w.

(** The cache structure with the writer gate held. *)
Record writing (c : proxy_cache) : Prop := mk_writing {
  wr_readcnt : readcnt c = 0;
  wr_mutex_read : mutex_read c = 1;
  wr_mutex_write : mutex_write c = 0
}.

(** A call of the cache interface by the proxy. For [write_cache], [p] is
    the address that [Malloc] hands out during the call ([NULL] when it
    fails). *)
Inductive call : Type :=
| Read (h u : string) (buffer : list byte)
| Write (p : ptr) (h u : string) (buffer : list byte) (len : Z).

(** Running a call: the value returned and the cache afterwards. *)
Definition run (w : world) (c : call) : res (Z * option world) :=
  match c with
  | Read h u buffer =>
      '(r, w', _) ← read_cache (Some w) h u buffer; Ok (r, w')
  | Write p h u buffer len => write_cache (Some w) p h u buffer len
  end.

(** What the environment guarantees for a call: [len] is an [int], and
    [Malloc] returns null or an address that is not in use when it is
    called. *)
Definition env_ok (w : world) (c : call) : Prop :=
  match c with
  | Read _ _ _ => True
  | Write p _ _ _ len =>
      is_int len ∧ ∀ w1, make_room w len = Ok w1 → p = NULL ∨ store w1 !! p = None
  end.

(** The states of a cache created by [init_cache(max_cache_size,
    max_object_size)] after any number of calls that returned, with or
    without success. *)
Inductive reachable (max_cache_size input_max_object_size : Z) : world → Prop :=
| reachable_init w :
    init_cache true max_cache_size input_max_object_size = Some w →
    reachable max_cache_size input_max_object_size w
| reachable_call w c r w' :
    reachable max_cache_size input_max_object_size w →
    env_ok w c → run w c = Ok (r, Some w') →
    reachable max_cache_size input_max_object_size w'.

(** The list is well formed and no call is in progress. *)
Record inv (w : world) : Prop := mk_inv {
  inv_wf : wf w (chain w);
  inv_quiet : quiescent (cache w);
  inv_space : is_uint (space (cache w))
}.

(** [remaining_space = max_cache_size − Σ payload_size]. *)
Definition accounting (max_cache_size : Z) (w : world) : Prop :=
  space (cache w) = max_cache_size - sum_payload (blocks w).

(** The payload sizes are sizes of buffers: none is negative. *)
Definition sizes_nonneg (w : world) : Prop :=
  Forall (fun b => 0 <= payload_size b) (blocks w).

(** The invariant behind the accounting property. *)
Record good (M : Z) (w : world) : Prop := mk_good {
  good_inv : inv w;
  good_acc : accounting M w;
  good_nonneg : sizes_nonneg w
}.

(** What the cache stores, most recently used first. *)
Definition contents (w : world) : list (string * string * Z * list byte) :=
  map data (blocks w).

(** What the blocks at the addresses [l] store. *)
Definition datas (st : gmap Z cache_block) (l : list ptr)
    : list (string * string * Z * list byte) :=
  omap (fun a => data <$> st !! a) l.

(** The cache is accounted for: its list is well formed, its blocks have
    sizes of buffers, and [space] is what [max_cache_size] leaves. *)
Record accounted (M : Z) (w : world) : Prop := mk_accounted {
  acc_wf : wf w (chain w);
  acc_space : is_uint (space (cache w));
  acc_eq : accounting M w;
  acc_nonneg : sizes_nonneg w
}.

(** [has_key], on what a block stores. *)
Definition dhas_key (h u : string) (d : string * string * Z * list byte) : bool :=
  (String.eqb d.1.1.1 h && String.eqb d.1.1.2 u)%bool.

(** The first entry with the key. *)
Definition first_key (h u : string) (ds : list (string * string * Z * list byte))
    : option (string * string * Z * list byte) :=
  List.find (dhas_key h u) ds.

(** [writes_key h u c]: the call [c] is a [write_cache] of the key
    [(h, u)]. *)
Definition writes_key (h u : string) (c : call) : Prop :=
  match c with
  | Read _ _ _ => False
  | Write _ h' u' _ _ => h' = h ∧ u' = u
  end.

(** [undisturbed h u w w']: [w'] is reached from [w] by calls that return,
    none of them a [write_cache] of the key [(h, u)]. *)
Inductive undisturbed (h u : string) : world → world → Prop :=
| undisturbed_refl w : undisturbed h u w w
| undisturbed_call w w' c r w'' :
    undisturbed h u w w' → env_ok w' c → ¬ writes_key h u c →
    run w' c = Ok (r, Some w'') → undisturbed h u w w''.

(** While the key is not written again, the first entry with the key (if
    there is one left) is the entry [d]. *)
Definition newest (h u : string) (d : string * string * Z * list byte)
    (w : world) : Prop :=
  inv w ∧ ∀ d', first_key h u (contents w) = Some d' → d' = d.

(** No two blocks of the cache share a key. *)
Definition unique_keys (w : world) : Prop :=
  ∀ h u, (count_key h u (blocks w) ≤ 1)%nat.

(** The states reached when [write_cache] is only called for a key that is
    not in the cache, as the proxy does after [read_cache] missed. *)
Inductive reachable_miss_first (max_cache_size input_max_object_size : Z)
    : world → Prop :=
| miss_first_init w :
    init_cache true max_cache_size input_max_object_size = Some w →
    reachable_miss_first max_cache_size input_max_object_size w
| miss_first_call w c r w' :
    reachable_miss_first max_cache_size input_max_object_size w →
    env_ok w c →
    (∀ p h u buffer len,
       c = Write p h u buffer len → count_key h u (blocks w) = 0%nat) →
    run w c = Ok (r, Some w') →
    reachable_miss_first max_cache_size input_max_object_size w'.

(** [count_key], on what the blocks store. *)
Definition dcount (h u : string) (ds : list (string * string * Z * list byte))
    : nat :=
  length (filter (fun d => dhas_key h u d = true) ds).

End CacheProps.

(** *** Example runs of the cache *)

Module CacheExamples.

Import Cache.

(** [init_cache(100, 100)]. *)
Definition fresh_cache : world :=
  mk_world (mk_cache 100 100 NULL 0 1 1) ∅.

(** The cache after a call, or [w] when the call left none. *)
Definition or_else (r : res (Z * option world)) (w : world) : world :=
  match r with
  | Ok (_, Some w') => w'
  | _ => w
  end.

(** What [read_cache] returns and what it leaves in the buffer. *)
Definition read_value (r : res (Z * option world * list byte))
    : res (Z * list byte) :=
  '(v, _, buffer) ← r; Ok (v, buffer).

(** After [write_cache(cache, "h", "/u", "a", 1)]. *)
Definition one_entry : world :=
  Eval vm_compute in
    or_else (write_cache (Some fresh_cache) 1 "h" "/u" ["a"%byte] 1) fresh_cache.

(** After a second [write_cache(cache, "h", "/u", "b", 1)]. *)
Definition two_entries : world :=
  Eval vm_compute in
    or_else (write_cache (Some one_entry) 2 "h" "/u" ["b"%byte] 1) fresh_cache.

(** After [write_cache(cache, "x", "/y", "c", 1)] on [one_entry]. *)
Definition other_entry : world :=
  Eval vm_compute in
    or_else (write_cache (Some one_entry) 2 "x" "/y" ["c"%byte] 1) fresh_cache.

End CacheExamples.

(** ** The properties of the allocator, stated *)

Module MmProps.

Import CInt Mm.


End MmProps.

(** *** Example runs of the allocator *)

Module MmExamples.

Import CInt Mm.

(** A heap at address [65536] that may grow to 1 MiB, before [mm_init]. *)
Definition boot : state :=
  mk_state (fun _ => 0) 65536 65536 (65536 + 1048576) 0 0.

(** After [mm_init]. *)
Definition fresh_heap : state := snd (mm_init boot).

(** The state and the value that a call returns. *)
Definition state_of (r : res (Z * state)) : state :=
  match r with
  | Ok (_, s) => s
  | _ => boot
  end.

Definition value_of (r : res (Z * state)) : res Z :=
  match r with
  | Ok (v, _) => Ok v
  | Fault => Fault
  | Blocked => Blocked
  | Diverge => Diverge
  end.

(** A byte stored in a block by the program that was given it. *)
Definition poke (s : state) (a v : Z) : state := set_mem (upd (mem s) a v) s.

(** [a = malloc(32); b = malloc(32); c = malloc(32); free(b)]: [a] is at
    [65656], followed by the free block that was [b]. *)
Definition three_blocks : state :=
  let s := state_of (malloc fresh_heap 32) in
  let s := state_of (malloc s 32) in
  let s := state_of (malloc s 32) in
  free s 65696.

(** [p = malloc(100)], at [65656], with the byte [170] stored at [p[0]]. *)
Definition one_block : state :=
  poke (state_of (malloc fresh_heap 100)) 65656 170.

(** A heap that [mm_init] fills: it cannot grow afterwards. *)
Definition full_heap : state :=
  snd (mm_init (mk_state (fun _ => 0) 65536 65536 (65536 + 288) 0 0)).

End MmExamples.

(** *** Sizes of entries, and more example runs of the cache *)

Module CacheMore.
Import CInt Cache CacheProps.

(** An entry holds as many bytes as its size says, a size that
    [write_cache] accepts. *)
Definition entry_ok (mo : Z) (d : string * string * Z * list byte) : Prop :=
  0 <= d.1.2 <= mo ∧ length d.2 = Z.to_nat d.1.2.

Definition stored_ok (w : world) : Prop :=
  Forall (entry_ok (max_object_size (cache w))) (contents w).

(** The payload sizes of entries, added up. *)
Definition total (ds : list (string * string * Z * list byte)) : Z :=
  foldr (fun d acc => d.1.2 + acc) 0 ds.

(** [init_cache(2, 2)] and two writes of one byte: a full cache. *)
Definition small_cache : world :=
  mk_world (mk_cache 2 2 NULL 0 1 1) ∅.

Definition small_half : world :=
  Eval vm_compute in
    CacheExamples.or_else
      (write_cache (Some small_cache) 1 "a" "/" ["x"%byte] 1) small_cache.

Definition small_full : world :=
  Eval vm_compute in
    CacheExamples.or_else
      (write_cache (Some small_half) 2 "b" "/" ["y"%byte] 1) small_cache.

(** [init_cache(2, 100)]: objects may be larger than the cache. *)
Definition narrow_cache : world :=
  mk_world (mk_cache 2 100 NULL 0 1 1) ∅.

End CacheMore.

(** ** Properties of the cache *)

Module CacheSpec.

Import CInt Cache CacheProps CacheExamples.

(** *** Doubly linked segments *)

Lemma load_ok w p b :
  p ≠ NULL → store w !! p = Some b → load w p = Ok b.
Proof.
  intros Hp Hb. unfold load. destruct (Z.eqb_spec p NULL); [done|].
  by rewrite Hb.
Qed.

Lemma update_ok w p f b :
  p ≠ NULL → store w !! p = Some b →
  update w p f = Ok (mk_world (cache w) (<[p := f b]> (store w))).
Proof. intros Hp Hb. unfold update. by rewrite (load_ok _ _ _ Hp Hb). Qed.

Lemma seg_frame st st' prev l nxt :
  (∀ a, a ∈ l → st' !! a = st !! a) →
  seg st prev l nxt → seg st' prev l nxt.
Proof.
  revert prev. induction l as [|a l IH]; intros prev Hag; simpl; [done|].
  intros (Ha & b & Hb & Hp & Hn & Hs). split; [done|]. exists b.
  rewrite Hag by set_solver. repeat split; try done.
  apply IH; [|done]. intros x Hx. apply Hag. set_solver.
Qed.

Lemma seg_in st prev l nxt a :
  seg st prev l nxt → a ∈ l → a ≠ NULL ∧ is_Some (st !! a).
Proof.
  revert prev. induction l as [|x l IH]; intros prev; simpl.
  - intros _ Hin. by apply not_elem_of_nil in Hin.
  - intros (Hx & b & Hb & _ & _ & Hs) Hin.
    apply elem_of_cons in Hin as [->|Hin]; [by eauto|]. by eapply IH.
Qed.

Lemma seg_app st prev l1 l2 nxt :
  seg st prev (l1 ++ l2) nxt ↔
  seg st prev l1 (hd nxt l2) ∧ seg st (default prev (last l1)) l2 nxt.
Proof.
  revert prev. induction l1 as [|a l1 IH]; intros prev; simpl.
  - tauto.
  - rewrite last_cons. split.
    + intros (Ha & b & Hb & Hp & Hn & Hs). apply IH in Hs as [Hs1 Hs2].
      split.
      * split; [done|]. exists b. repeat split; try done.
        rewrite Hn. by destruct l1.
      * by destruct (last l1).
    + intros [(Ha & b & Hb & Hp & Hn & Hs1) Hs2]. split; [done|].
      exists b. repeat split; try done.
      * rewrite Hn. by destruct l1.
      * apply IH. split; [done|]. by destruct (last l1).
Qed.

(** The walk of [chain] finds the list. *)
Lemma walk_seg st prev l fuel :
  seg st prev l NULL → (length l < fuel)%nat → walk fuel st (hd NULL l) = l.
Proof.
  revert prev fuel. induction l as [|a l IH]; intros prev fuel Hs Hf.
  - destruct fuel; [simpl in Hf; lia|]. reflexivity.
  - destruct fuel; [simpl in Hf; lia|]. simpl in *.
    destruct Hs as (Ha & b & Hb & Hp & Hn & Hs).
    destruct (Z.eqb_spec a NULL); [done|]. rewrite Hb, Hn. f_equal.
    eapply IH; [done|lia].
Qed.

Lemma seg_length st prev l nxt :
  seg st prev l nxt → NoDup l → (length l ≤ size st)%nat.
Proof.
  intros Hs Hnd.
  assert (Hsub : list_to_set l ⊆ dom st).
  { intros a Ha. apply elem_of_list_to_set in Ha. apply elem_of_dom.
    by eapply seg_in. }
  apply subseteq_size in Hsub. rewrite size_list_to_set in Hsub by done.
  by rewrite size_dom in Hsub.
Qed.

Lemma wf_chain w l : wf w l → chain w = l.
Proof.
  intros [Hr Hs Hnd]. unfold chain, enough. rewrite Hr.
  eapply walk_seg; [done|]. apply seg_length in Hs; [lia|done].
Qed.

Lemma wf_unique w l l' : wf w l → wf w l' → l = l'.
Proof. intros H H'. apply wf_chain in H, H'. congruence. Qed.

Lemma same_data_trans st1 st2 st3 :
  same_data st1 st2 → same_data st2 st3 → same_data st1 st3.
Proof. intros H1 H2 p. by rewrite H2, H1. Qed.

Lemma same_data_insert st p b f :
  st !! p = Some b → data (f b) = data b → same_data st (<[p := f b]> st).
Proof.
  intros Hb Hf q. destruct (decide (p = q)) as [<-|Hne].
  - rewrite lookup_insert_eq, Hb. simpl. by rewrite Hf.
  - by rewrite lookup_insert_ne.
Qed.

Lemma same_ctl_refl c : same_ctl c c.
Proof. by repeat split. Qed.

Lemma same_ctl_trans c1 c2 c3 :
  same_ctl c1 c2 → same_ctl c2 c3 → same_ctl c1 c3.
Proof.
  intros (?&?&?&?) (?&?&?&?). repeat split; congruence.
Qed.

(** Runs one [load] or [update] whose block is known. *)
Ltac run_mem :=
  first
    [ erewrite update_ok; [| done | by simplify_map_eq]
    | erewrite load_ok; [| done | by simplify_map_eq] ];
  simpl.

(** [insert_block] puts a block that is not in the list at its head and
    takes its payload size off [space]. *)
Lemma insert_block_spec w l a b :
  wf w l → a ∉ l → a ≠ NULL → store w !! a = Some b →
  ∃ w', insert_block w a = Ok w' ∧ wf w' (a :: l) ∧
        space (cache w') = to_uint (space (cache w) - payload_size b) ∧
        same_ctl (cache w) (cache w') ∧ same_data (store w) (store w') ∧
        dom (store w') = dom (store w).
Proof.
  intros [Hr Hs Hnd] Hnin Ha Hb. unfold insert_block.
  destruct l as [|r l]; simpl in Hr; rewrite Hr.
  - simpl. run_mem. run_mem. run_mem.
    eexists. split; [reflexivity|]. simpl. split; [|split; [|split; [|split]]].
    + constructor; simpl; [done| |by apply NoDup_singleton].
      split; [done|]. eexists. rewrite lookup_insert_eq. done.
    + done.
    + by repeat split.
    + intros p. destruct (decide (a = p)) as [<-|Hne].
      * rewrite lookup_insert_eq, Hb. done.
      * by rewrite !lookup_insert_ne.
    + rewrite !dom_insert_L. apply elem_of_dom_2 in Hb. set_solver.
  - simpl in Hs. destruct Hs as (Hrn & br & Hbr & Hpr & Hnr & Hs).
    apply not_elem_of_cons in Hnin as [Hne Hnin].
    apply NoDup_cons in Hnd as [Hrl Hnd].
    destruct (Z.eqb_spec r NULL) as [|_]; [done|]. simpl.
    run_mem. run_mem. rewrite Hr. run_mem. run_mem.
    eexists. split; [reflexivity|]. simpl. split; [|split; [|split; [|split]]].
    + constructor; simpl.
      * done.
      * split; [done|]. eexists. rewrite lookup_insert_ne by done.
        rewrite lookup_insert_eq. split; [done|]. split; [done|].
        split; [done|]. split; [done|]. eexists.
        rewrite lookup_insert_eq. split; [done|]. split; [done|].
        split; [done|]. eapply seg_frame; [|done].
        intros x Hx. rewrite !lookup_insert_ne; [done|set_solver..].
      * apply NoDup_cons. split; [set_solver|]. by apply NoDup_cons.
    + done.
    + by repeat split.
    + intros p. destruct (decide (r = p)) as [<-|Hne1].
      * rewrite lookup_insert_eq, Hbr. done.
      * rewrite lookup_insert_ne by done.
        destruct (decide (a = p)) as [<-|Hne2].
        -- rewrite lookup_insert_eq, Hb. done.
        -- by rewrite !lookup_insert_ne.
    + rewrite !dom_insert_L. apply elem_of_dom_2 in Hb, Hbr. set_solver.
Qed.

Lemma seg_set_last_next st prev l c nxt nxt' bc :
  seg st prev (l ++ [c]) nxt → c ∉ l → st !! c = Some bc →
  seg (<[c := set_next nxt' bc]> st) prev (l ++ [c]) nxt'.
Proof.
  intros Hs Hc Hbc. apply seg_app in Hs as [Hs1 Hs2]. apply seg_app. split.
  - eapply seg_frame; [|exact Hs1].
    intros x Hx. rewrite lookup_insert_ne; [done|]. by intros ->.
  - simpl in *. destruct Hs2 as (Hcn & b & Hb & Hp & _ & _).
    split; [done|]. exists (set_next nxt' bc). rewrite lookup_insert_eq.
    assert (b = bc) as -> by congruence. done.
Qed.

Lemma seg_set_first_prev st prev prev' d l nxt bd :
  seg st prev (d :: l) nxt → d ∉ l → st !! d = Some bd →
  seg (<[d := set_prev prev' bd]> st) prev' (d :: l) nxt.
Proof.
  simpl. intros (Hd & b & Hb & Hp & Hn & Hs) Hnin Hbd.
  assert (b = bd) as -> by congruence.
  split; [done|]. exists (set_prev prev' bd). rewrite lookup_insert_eq.
  repeat split; try done.
  eapply seg_frame; [|exact Hs].
  intros x Hx. rewrite lookup_insert_ne; [done|]. by intros ->.
Qed.

(** [remove_block] unlinks a block of the list and gives its payload size
    back to [space]; the block stays allocated. *)
Lemma remove_block_spec w l1 a l2 b :
  wf w (l1 ++ a :: l2) → store w !! a = Some b →
  ∃ w', remove_block w a = Ok w' ∧ wf w' (l1 ++ l2) ∧
        space (cache w') = to_uint (space (cache w) + payload_size b) ∧
        same_ctl (cache w) (cache w') ∧ same_data (store w) (store w') ∧
        dom (store w') = dom (store w).
Proof.
  intros [Hr Hs Hnd] Hb.
  apply seg_app in Hs as [Hs1 Hs2].
  pose proof Hs2 as (Ha & b' & Hb' & Hp & Hn & Hs3).
  assert (b' = b) as -> by congruence. clear Hb'.
  apply NoDup_app in Hnd as (Hnd1 & Hdisj & Hnd2).
  apply NoDup_cons in Hnd2 as [Hal2 Hnd2].
  assert (Hal1 : a ∉ l1) by (intros Hin; apply (Hdisj _ Hin); set_solver).
  unfold remove_block. rewrite (load_ok _ _ _ Ha Hb). simpl.
  (* first phase: the link from the previous block, or the root *)
  assert (∃ w1,
    (if prev_cache_block b =? NULL
     then Ok (with_cache (set_root (next_cache_block b)) w)
     else update w (prev_cache_block b) (set_next (next_cache_block b)))
    = Ok w1 ∧
    root (cache w1) = hd NULL (l1 ++ l2) ∧
    seg (store w1) NULL l1 (hd NULL l2) ∧
    (∀ x, x ∉ l1 → store w1 !! x = store w !! x) ∧
    space (cache w1) = space (cache w) ∧
    same_ctl (cache w) (cache w1) ∧ same_data (store w) (store w1) ∧
    dom (store w1) = dom (store w)) as (w1 & -> & Hr1 & Hs1' & Hfr1 & Hsp1 & Hc1 & Hd1 & Hdom1).
  { destruct l1 as [|x l1 _] using rev_ind.
    - simpl in Hp. rewrite Hp. simpl. eexists. split; [reflexivity|].
      simpl. rewrite Hn. repeat split; try done.
    - rewrite last_snoc in Hp. simpl in Hp.
      assert (Hx : x ≠ NULL ∧ is_Some (store w !! x)).
      { eapply seg_in; [exact Hs1|]. set_solver. }
      destruct Hx as [Hx [bx Hbx]]. rewrite Hp.
      destruct (Z.eqb_spec x NULL) as [|_]; [done|].
      rewrite (update_ok _ _ _ _ Hx Hbx).
      eexists. split; [reflexivity|]. simpl.
      apply NoDup_app in Hnd1 as (_ & Hxl & _).
      assert (Hxl1 : x ∉ l1) by (intros Hin; apply (Hxl _ Hin); set_solver).
      split; [|split; [|split; [|split; [|split; [|split]]]]].
      + rewrite Hr. by destruct l1.
      + rewrite Hn. simpl in Hs1. by eapply seg_set_last_next.
      + intros y Hy. rewrite lookup_insert_ne; [done|]. set_solver.
      + done.
      + by repeat split.
      + by apply same_data_insert.
      + rewrite dom_insert_L. apply elem_of_dom_2 in Hbx. set_solver. }
  simpl.
  assert (Hb1 : store w1 !! a = Some b) by (rewrite Hfr1; done).
  rewrite (load_ok _ _ _ Ha Hb1). simpl.
  (* second phase: the link from the next block *)
  assert (∃ w2,
    (if negb (next_cache_block b =? NULL)
     then update w1 (next_cache_block b) (set_prev (prev_cache_block b))
     else Ok w1) = Ok w2 ∧
    cache w2 = cache w1 ∧
    seg (store w2) (default NULL (last l1)) l2 NULL ∧
    (∀ x, x ∉ l2 → store w2 !! x = store w1 !! x) ∧
    same_data (store w1) (store w2) ∧
    dom (store w2) = dom (store w1)) as (w2 & -> & Hc2 & Hs2' & Hfr2 & Hd2 & Hdom2).
  { destruct l2 as [|d l2].
    - simpl in Hn. rewrite Hn. simpl. eexists. split; [reflexivity|].
      repeat split; try done.
    - simpl in Hn. rewrite Hn.
      pose proof Hs3 as (Hd & bd & Hbd & _).
      destruct (Z.eqb_spec d NULL) as [|_]; [done|]. simpl.
      assert (Hdl1 : d ∉ l1) by (intros Hin; apply (Hdisj _ Hin); set_solver).
      assert (Hbd1 : store w1 !! d = Some bd) by (rewrite Hfr1; done).
      rewrite (update_ok _ _ _ _ Hd Hbd1).
      eexists. split; [reflexivity|]. simpl.
      apply NoDup_cons in Hnd2 as [Hdl2 Hnd2].
      split; [done|]. split; [|split; [|split]].
      + rewrite Hp. eapply seg_set_first_prev; [|done|done].
        eapply seg_frame; [|exact Hs3].
        intros y Hy. apply Hfr1. intros Hin. apply (Hdisj _ Hin). set_solver.
      + intros y Hy. rewrite lookup_insert_ne; [done|]. set_solver.
      + by apply same_data_insert.
      + rewrite dom_insert_L. apply elem_of_dom_2 in Hbd1. set_solver. }
  simpl.
  assert (Hb2 : store w2 !! a = Some b) by (rewrite Hfr2; done).
  rewrite (load_ok _ _ _ Ha Hb2). simpl.
  eexists. split; [reflexivity|]. simpl. rewrite Hc2.
  split; [|split; [|split; [|split]]].
  - constructor; simpl.
    + by rewrite Hc2.
    + apply seg_app. split; [|done].
      eapply seg_frame; [|exact Hs1'].
      intros y Hy. apply Hfr2. intros Hin. apply (Hdisj _ Hy). set_solver.
    + apply NoDup_app. repeat split; [done| |done].
      intros y Hy1 Hy2. apply (Hdisj _ Hy1). set_solver.
  - by rewrite Hsp1.
  - destruct Hc1 as (?&?&?&?). by repeat split.
  - by eapply same_data_trans.
  - congruence.
Qed.

(** [search_block] returns the first block of the list with the key. *)
Lemma search_from_spec w prev l h u fuel :
  seg (store w) prev l NULL → (length l < fuel)%nat →
  (search_from fuel w (hd NULL l) h u = Ok NULL ∧
   ∀ a b, a ∈ l → store w !! a = Some b → has_key h u b = false) ∨
  (∃ l1 a l2 b, l = l1 ++ a :: l2 ∧
     search_from fuel w (hd NULL l) h u = Ok a ∧ a ≠ NULL ∧
     store w !! a = Some b ∧ has_key h u b = true ∧
     ∀ x bx, x ∈ l1 → store w !! x = Some bx → has_key h u bx = false).
Proof.
  revert prev fuel. induction l as [|a l IH]; intros prev fuel Hs Hf.
  - left. destruct fuel; [simpl in Hf; lia|]. split; [done|].
    intros a b Ha. by apply not_elem_of_nil in Ha.
  - destruct fuel; [simpl in Hf; lia|]. simpl in Hs, Hf.
    destruct Hs as (Ha & b & Hb & Hp & Hn & Hs). simpl.
    destruct (Z.eqb_spec a NULL) as [|_]; [done|].
    rewrite (load_ok _ _ _ Ha Hb). simpl. fold (has_key h u b).
    destruct (has_key h u b) eqn:Hk.
    + right. exists [], a, l, b. repeat split; try done.
      intros x bx Hx. by apply not_elem_of_nil in Hx.
    + rewrite Hn. destruct (IH a fuel Hs ltac:(lia)) as
        [[Hr Hall]|(l1 & x & l2 & bx & -> & Hr & Hx & Hbx & Hkx & Hall)].
      * left. split; [done|]. intros y by' Hy Hby.
        apply elem_of_cons in Hy as [->|Hy]; [congruence|by eapply Hall].
      * right. exists (a :: l1), x, l2, bx. repeat split; try done.
        intros y by' Hy Hby.
        apply elem_of_cons in Hy as [->|Hy]; [congruence|by eapply Hall].
Qed.

Lemma search_block_spec w l h u :
  wf w l →
  (search_block w h u = Ok NULL ∧
   ∀ a b, a ∈ l → store w !! a = Some b → has_key h u b = false) ∨
  (∃ l1 a l2 b, l = l1 ++ a :: l2 ∧
     search_block w h u = Ok a ∧ a ≠ NULL ∧
     store w !! a = Some b ∧ has_key h u b = true ∧
     ∀ x bx, x ∈ l1 → store w !! x = Some bx → has_key h u bx = false).
Proof.
  intros [Hr Hs Hnd]. unfold search_block, enough. rewrite Hr.
  eapply search_from_spec; [done|].
  apply seg_length in Hs; [lia|done].
Qed.

(** [get_lru] returns the last block of the list. *)
Lemma last_from_spec w prev l a fuel :
  seg (store w) prev (l ++ [a]) NULL → (length l < fuel)%nat →
  last_from fuel w (hd a l) = Ok a.
Proof.
  revert prev fuel. induction l as [|x l IH]; intros prev fuel Hs Hf.
  - destruct fuel; [simpl in Hf; lia|]. simpl in *.
    destruct Hs as (Ha & b & Hb & Hp & Hn & _).
    rewrite (load_ok _ _ _ Ha Hb). simpl. rewrite Hn. done.
  - destruct fuel; [simpl in Hf; lia|]. simpl in *.
    destruct Hs as (Hx & b & Hb & Hp & Hn & Hs).
    rewrite (load_ok _ _ _ Hx Hb). simpl.
    assert (Hnx : next_cache_block b = hd a l) by (rewrite Hn; by destruct l).
    assert (Hne : hd a l ≠ NULL).
    { destruct l; simpl in *; tauto. }
    rewrite Hnx. destruct (Z.eqb_spec (hd a l) NULL) as [|_]; [done|]. simpl.
    eapply IH; [done|lia].
Qed.

Lemma get_lru_nil w : wf w [] → get_lru w = Ok NULL.
Proof. intros [Hr _ _]. unfold get_lru. simpl in Hr. by rewrite Hr. Qed.

Lemma get_lru_snoc w l a : wf w (l ++ [a]) → get_lru w = Ok a.
Proof.
  intros [Hr Hs Hnd]. unfold get_lru, enough. rewrite Hr.
  assert (Hh : hd NULL (l ++ [a]) = hd a l) by (by destruct l).
  assert (Ha : a ≠ NULL ∧ is_Some (store w !! a)).
  { eapply seg_in; [done|]. set_solver. }
  assert (Hne : hd a l ≠ NULL).
  { destruct l as [|x l]; simpl in *; tauto. }
  rewrite Hh. destruct (Z.eqb_spec (hd a l) NULL) as [|_]; [done|].
  eapply last_from_spec; [done|].
  apply seg_length in Hs; [|done]. rewrite length_app in Hs. simpl in Hs. lia.
Qed.

Lemma freed_nil st : freed [] st st.
Proof. split; [by intros p Hp%not_elem_of_nil|done]. Qed.

(** [eviction] frees the last block of the list; on an empty list it
    dereferences the null pointer that [get_lru] returns. *)
Lemma eviction_nil w : wf w [] → eviction w = Fault.
Proof. intros Hw. unfold eviction. by rewrite (get_lru_nil _ Hw). Qed.

Lemma eviction_snoc w l a b :
  wf w (l ++ [a]) → store w !! a = Some b →
  ∃ w', eviction w = Ok w' ∧ wf w' l ∧
        space (cache w') = to_uint (space (cache w) + payload_size b) ∧
        same_ctl (cache w) (cache w') ∧ freed [a] (store w) (store w') ∧
        dom (store w') = dom (store w) ∖ {[a]}.
Proof.
  intros Hw Hb. unfold eviction. rewrite (get_lru_snoc _ _ _ Hw). simpl.
  destruct (remove_block_spec _ _ _ _ _ Hw Hb)
    as (w1 & -> & Hw1 & Hsp & Hc & Hd & Hdom).
  simpl. rewrite app_nil_r in Hw1.
  assert (Ha : a ≠ NULL ∧ is_Some (store w !! a)).
  { destruct Hw as [_ Hs _]. eapply seg_in; [done|]. set_solver. }
  destruct Ha as [Ha _].
  assert (Hal : a ∉ l).
  { destruct Hw as [_ _ Hnd]. apply NoDup_app in Hnd as (_ & Hd' & _).
    intros Hin. apply (Hd' _ Hin). set_solver. }
  assert (Hb1 : is_Some (store w1 !! a)).
  { apply elem_of_dom. rewrite Hdom. by apply elem_of_dom. }
  destruct Hb1 as [b1 Hb1].
  unfold free_block. rewrite (load_ok _ _ _ Ha Hb1). simpl.
  eexists. split; [reflexivity|]. simpl.
  split; [|split; [|split; [|split]]]; try done.
  - destruct Hw1 as [Hr1 Hs1 Hnd1]. constructor; simpl; try done.
    eapply seg_frame; [|done].
    intros x Hx. rewrite lookup_delete_ne; [done|]. by intros ->.
  - split.
    + intros p Hp. apply list_elem_of_singleton in Hp as ->.
      by rewrite lookup_delete_eq.
    + intros p Hp. rewrite lookup_delete_ne by set_solver. apply Hd.
  - by rewrite dom_delete_L, Hdom.
Qed.

Lemma sizes_app st l1 l2 : sizes st (l1 ++ l2) = sizes st l1 + sizes st l2.
Proof. induction l1 as [|a l1 IH]; simpl; [done|]. rewrite IH. lia. Qed.

Lemma sizes_ext st st' l :
  (∀ p, p ∈ l → data <$> st' !! p = data <$> st !! p) →
  sizes st' l = sizes st l.
Proof.
  induction l as [|a l IH]; intros H; simpl; [done|].
  rewrite IH by (intros p Hp; apply H; set_solver). f_equal.
  specialize (H a ltac:(set_solver)).
  destruct (st' !! a) as [b'|], (st !! a) as [b|]; simpl in *; try done.
  by injection H as _ _ -> _.
Qed.

Lemma sum_payload_sizes st l :
  sum_payload (omap (fun p => st !! p) l) = sizes st l.
Proof.
  induction l as [|a l IH]; simpl; [done|].
  destruct (st !! a); simpl; rewrite <- IH; done.
Qed.

Lemma blocks_wf w l : wf w l → blocks w = omap (fun p => store w !! p) l.
Proof. intros H. unfold blocks. by rewrite (wf_chain _ _ H). Qed.

Lemma to_uint_range z : is_uint (to_uint z).
Proof.
  unfold is_uint, to_uint, UINT_MAX.
  pose proof (Z.mod_pos_bound z 4294967296 ltac:(lia)). lia.
Qed.

Lemma to_uint_id z : is_uint z → to_uint z = z.
Proof. unfold is_uint, to_uint, UINT_MAX. intros H. apply Z.mod_small. lia. Qed.

Lemma to_uint_add_l x y : to_uint (to_uint x + y) = to_uint (x + y).
Proof. unfold to_uint. apply Zplus_mod_idemp_l. Qed.

(** The eviction loop frees blocks from the end of the list until [space]
    is at least [len]; it faults when the list runs out first. *)
Lemma evict_loop_spec w l len fuel :
  wf w l → is_uint (space (cache w)) → (length l < fuel)%nat →
  (∃ l' ev w', l = l' ++ ev ∧ evict_loop fuel w len = Ok w' ∧ wf w' l' ∧
     to_uint len <= space (cache w') ∧
     space (cache w') = to_uint (space (cache w) + sizes (store w) ev) ∧
     same_ctl (cache w) (cache w') ∧ freed ev (store w) (store w') ∧
     dom (store w') ⊆ dom (store w)) ∨
  (evict_loop fuel w len = Fault ∧
   to_uint (space (cache w) + sizes (store w) l) < to_uint len).
Proof.
  revert w fuel. induction l as [|a l IH] using rev_ind; intros w fuel Hw Hsp Hf.
  - destruct fuel; [simpl in Hf; lia|]. simpl.
    destruct (Z.ltb_spec (space (cache w)) (to_uint len)) as [Hlt|Hge].
    + right. rewrite (eviction_nil _ Hw). split; [done|].
      rewrite Z.add_0_r, to_uint_id; done.
    + left. exists [], [], w. simpl. rewrite Z.add_0_r, (to_uint_id (space (cache w))) by done.
      split; [done|]. split; [done|]. split; [done|]. split; [done|].
      split; [done|]. split; [apply same_ctl_refl|].
      split; [apply freed_nil|done].
  - destruct fuel; [simpl in Hf; lia|]. simpl.
    destruct (Z.ltb_spec (space (cache w)) (to_uint len)) as [Hlt|Hge].
    + assert (Ha : a ≠ NULL ∧ is_Some (store w !! a)).
      { destruct Hw as [_ Hs _]. eapply seg_in; [done|]. set_solver. }
      destruct Ha as [Ha [b Hb]].
      destruct (eviction_snoc _ _ _ _ Hw Hb)
        as (w1 & -> & Hw1 & Hsp1 & Hc1 & [Hfr1 Hfr1'] & Hdom1).
      simpl.
      assert (Hal : a ∉ l).
      { destruct Hw as [_ _ Hnd]. apply NoDup_app in Hnd as (_ & Hd' & _).
        intros Hin. apply (Hd' _ Hin). set_solver. }
      assert (Hsz : ∀ l0, a ∉ l0 → sizes (store w1) l0 = sizes (store w) l0).
      { intros l0 Hl0. apply sizes_ext. intros p Hp. apply Hfr1'.
        intros Hin%list_elem_of_singleton. by subst. }
      assert (Hf1 : (length l < fuel)%nat).
      { rewrite length_app in Hf. simpl in Hf. lia. }
      assert (Hu1 : is_uint (space (cache w1))).
      { rewrite Hsp1. apply to_uint_range. }
      destruct (IH w1 fuel Hw1 Hu1 Hf1)
        as [(l' & ev & w' & -> & -> & Hw' & Hle & Hsp' & Hc' & [Hfr Hfr'] & Hdom')
           |[-> Hlt']].
      * left. exists l', (ev ++ [a]), w'.
        assert (Hav : a ∉ ev) by (intros Hin; apply Hal; set_solver).
        split; [by rewrite app_assoc|]. split; [done|]. split; [done|].
        split; [done|]. split; [|split; [|split]].
        -- rewrite Hsp', Hsp1, to_uint_add_l, sizes_app, Hsz by done.
           simpl. rewrite Hb. simpl. f_equal. lia.
        -- by eapply same_ctl_trans.
        -- split.
           ++ intros p Hp. apply elem_of_app in Hp as [Hp|Hp]; [by apply Hfr|].
              apply list_elem_of_singleton in Hp as ->.
              specialize (Hfr' a Hav). rewrite (Hfr1 a) in Hfr' by set_solver.
              by destruct (store w' !! a).
           ++ intros p Hp. rewrite Hfr' by set_solver. apply Hfr1'. set_solver.
        -- set_solver.
      * right. split; [done|].
        rewrite Hsp1, to_uint_add_l, Hsz in Hlt' by set_solver.
        rewrite sizes_app. simpl. rewrite Hb. simpl.
        replace (space (cache w) + (sizes (store w) l + (payload_size b + 0)))
          with (space (cache w) + payload_size b + sizes (store w) l) by lia.
        done.
    + left. exists (l ++ [a]), [], w. simpl.
      rewrite app_nil_r, Z.add_0_r, (to_uint_id (space (cache w))) by done.
      split; [done|]. split; [done|]. split; [done|]. split; [done|].
      split; [done|]. split; [apply same_ctl_refl|].
      split; [apply freed_nil|done].
Qed.

Lemma wf_with_cache f w l :
  root (f (cache w)) = root (cache w) → wf w l → wf (with_cache f w) l.
Proof. intros Hf [Hr Hs Hnd]. constructor; simpl; [congruence|done..]. Qed.

Lemma reader_enter_spec w :
  quiescent (cache w) → reader_enter w = Ok (reading w).
Proof.
  destruct w as [[sp mo r rc mr mw] st]. intros [Hrc Hmr Hmw].
  simpl in *. subst. reflexivity.
Qed.

Lemma reader_exit_spec w :
  quiescent (cache w) → reader_exit (reading w) = Ok w.
Proof.
  destruct w as [[sp mo r rc mr mw] st]. intros [Hrc Hmr Hmw].
  simpl in *. subst. reflexivity.
Qed.

Lemma wf_reading w l : wf w l → wf (reading w) l.
Proof. by apply wf_with_cache. Qed.

(** [lru_update] moves a block of the list to its head. *)
Lemma lru_update_spec w l1 a l2 b :
  wf w (l1 ++ a :: l2) → store w !! a = Some b →
  quiescent (cache w) → is_uint (space (cache w)) →
  ∃ w', lru_update w a = Ok w' ∧ wf w' (a :: l1 ++ l2) ∧
        quiescent (cache w') ∧
        space (cache w') = space (cache w) ∧
        max_object_size (cache w') = max_object_size (cache w) ∧
        same_data (store w) (store w') ∧ dom (store w') = dom (store w).
Proof.
  intros Hw Hb [Hrc Hmr Hmw] Hsp. unfold lru_update, P. rewrite Hmw. simpl.
  set (w0 := with_cache (set_mutex_write (1 - 1)) w).
  assert (Hw0 : wf w0 (l1 ++ a :: l2)) by (by apply wf_with_cache).
  destruct (remove_block_spec w0 _ _ _ _ Hw0 Hb)
    as (w1 & -> & Hw1 & Hsp1 & Hc1 & Hd1 & Hdom1).
  simpl.
  assert (Ha : a ≠ NULL ∧ is_Some (store w !! a)).
  { destruct Hw as [_ Hs _]. eapply seg_in; [done|]. set_solver. }
  destruct Ha as [Ha _].
  assert (Hal : a ∉ l1 ++ l2).
  { destruct Hw as [_ _ Hnd]. apply NoDup_app in Hnd as (_ & Hd' & Hnd2).
    apply NoDup_cons in Hnd2 as [Hal2 _].
    intros [Hin|Hin]%elem_of_app; [|done]. apply (Hd' _ Hin). set_solver. }
  assert (Hb1 : ∃ b1, store w1 !! a = Some b1 ∧ data b1 = data b).
  { specialize (Hd1 a). simpl in Hd1. rewrite Hb in Hd1.
    destruct (store w1 !! a) as [b1|]; [|done]. exists b1.
    split; [done|]. simpl in Hd1. congruence. }
  destruct Hb1 as (b1 & Hb1 & Hdb).
  destruct (insert_block_spec w1 _ _ _ Hw1 Hal Ha Hb1)
    as (w2 & -> & Hw2 & Hsp2 & Hc2 & Hd2 & Hdom2).
  simpl. unfold V. eexists. split; [reflexivity|].
  destruct Hc1 as (Hmo1 & Hrc1 & Hmr1 & Hmw1).
  destruct Hc2 as (Hmo2 & Hrc2 & Hmr2 & Hmw2). simpl in *.
  split; [by apply wf_with_cache|]. split; [|split; [|split; [|split]]].
  - constructor; simpl; [congruence|congruence|]. rewrite Hmw2, Hmw1. done.
  - rewrite Hsp2, Hsp1.
    assert (payload_size b1 = payload_size b) as -> by (by injection Hdb).
    unfold to_uint. rewrite Zminus_mod_idemp_l.
    replace (space (cache w) + payload_size b - payload_size b)
      with (space (cache w)) by lia.
    by apply to_uint_id.
  - congruence.
  - by eapply same_data_trans.
  - congruence.
Qed.

(** [read_cache] on a key that no block of the list has. *)
Lemma read_cache_miss w l h u buffer :
  wf w l → quiescent (cache w) →
  (∀ a b, a ∈ l → store w !! a = Some b → has_key h u b = false) →
  read_cache (Some w) h u buffer = Ok (-1, Some w, buffer).
Proof.
  intros Hw Hq Hmiss. unfold read_cache.
  rewrite (reader_enter_spec _ Hq). simpl.
  destruct (search_block_spec _ _ h u (wf_reading _ _ Hw))
    as [[-> _]|(l1 & a & l2 & b & -> & _ & _ & Hb & Hk & _)].
  - simpl. rewrite (reader_exit_spec _ Hq). done.
  - rewrite (Hmiss a b) in Hk; [done|set_solver|done].
Qed.

(** [read_cache] on a key that some block of the list has: the first such
    block is copied out and then moved to the head. *)
Lemma read_cache_spec w l h u buffer :
  wf w l → quiescent (cache w) →
  (read_cache (Some w) h u buffer = Ok (-1, Some w, buffer) ∧
   ∀ a b, a ∈ l → store w !! a = Some b → has_key h u b = false) ∨
  (∃ l1 a l2 b, l = l1 ++ a :: l2 ∧ store w !! a = Some b ∧
     has_key h u b = true ∧
     (∀ x bx, x ∈ l1 → store w !! x = Some bx → has_key h u bx = false) ∧
     read_cache (Some w) h u buffer =
       (buffer' ← memcpy buffer (payload b) (payload_size b);
        w' ← lru_update w a;
        Ok (payload_size b, Some w', buffer'))).
Proof.
  intros Hw Hq.
  destruct (search_block_spec _ _ h u (wf_reading _ _ Hw))
    as [[Hs Hmiss]|(l1 & a & l2 & b & -> & Hs & Ha & Hb & Hk & Hfirst)].
  - left. split; [|done]. by eapply read_cache_miss.
  - right. exists l1, a, l2, b. repeat split; try done.
    unfold read_cache. rewrite (reader_enter_spec _ Hq). simpl.
    rewrite Hs. simpl. destruct (Z.eqb_spec a NULL) as [|_]; [done|].
    unfold read_cache_block. destruct (Z.eqb_spec a NULL) as [|_]; [done|].
    rewrite (load_ok _ _ _ Ha Hb). simpl.
    destruct (memcpy buffer (payload b) (payload_size b)); simpl; try done.
    by rewrite (reader_exit_spec _ Hq).
Qed.

Lemma write_cache_unfold w p h u buffer len :
  write_cache (Some w) p h u buffer len =
  if max_object_size (cache w) <? to_uint len then Ok (-1, Some w)
  else
    w ← make_room w len;
    '(block_ptr, w) ← create_block w p h u buffer len;
    if block_ptr =? NULL then
      w ← V mutex_write set_mutex_write w;
      Ok (-1, Some w)
    else
      w ← insert_block w block_ptr;
      w ← V mutex_write set_mutex_write w;
      Ok (1, Some w).
Proof.
  unfold write_cache, make_room.
  destruct (max_object_size (cache w) <? to_uint len); [done|].
  by destruct (P mutex_write set_mutex_write w).
Qed.

Lemma make_room_spec w l len :
  wf w l → quiescent (cache w) → is_uint (space (cache w)) →
  (∃ l' ev w1, l = l' ++ ev ∧ make_room w len = Ok w1 ∧ wf w1 l' ∧
     to_uint len <= space (cache w1) ∧
     space (cache w1) = to_uint (space (cache w) + sizes (store w) ev) ∧
     max_object_size (cache w1) = max_object_size (cache w) ∧
     writing (cache w1) ∧ freed ev (store w) (store w1) ∧
     dom (store w1) ⊆ dom (store w)) ∨
  (make_room w len = Fault ∧
   to_uint (space (cache w) + sizes (store w) l) < to_uint len).
Proof.
  intros Hw [Hrc Hmr Hmw] Hsp.
  set (w0 := with_cache (set_mutex_write (1 - 1)) w).
  assert (Hmk : make_room w len = evict_loop (enough w0) w0 len).
  { unfold make_room, P. by rewrite Hmw. }
  rewrite Hmk.
  assert (Hw0 : wf w0 l) by (by apply wf_with_cache).
  assert (Hf : (length l < enough w0)%nat).
  { destruct Hw as [_ Hs Hnd]. apply seg_length in Hs; [|done].
    unfold enough. simpl. lia. }
  destruct (evict_loop_spec w0 l len _ Hw0 Hsp Hf)
    as [(l' & ev & w1 & -> & Hr & Hw1 & Hle & Hsp1 & Hc & Hfr & Hdom)|[Hr Hlt]].
  - left. exists l', ev, w1. destruct Hc as (Hmo & Hrc1 & Hmr1 & Hmw1).
    split; [done|]. split; [done|]. split; [done|]. split; [done|].
    split; [done|]. split; [done|].
    split; [subst w0; constructor; simpl in *;
            [congruence|congruence|by rewrite Hmw1]|]. done.
  - right. done.
Qed.

Lemma memcpy_fresh buffer n :
  (Z.to_nat (to_size_t n) ≤ length buffer)%nat →
  memcpy (repeat "000"%byte (Z.to_nat (to_size_t n))) buffer n
  = Ok (take (Z.to_nat (to_size_t n)) buffer).
Proof.
  intros Hle. unfold memcpy. rewrite repeat_length.
  destruct (Nat.leb_spec (Z.to_nat (to_size_t n)) (length buffer)); [|lia].
  rewrite Nat.leb_refl. simpl.
  rewrite drop_ge by (rewrite repeat_length; lia). by rewrite app_nil_r.
Qed.

Lemma memcpy_fault_src dst src n :
  (length src < Z.to_nat (to_size_t n))%nat → memcpy dst src n = Fault.
Proof.
  intros Hlt. unfold memcpy.
  destruct (Nat.leb_spec (Z.to_nat (to_size_t n)) (length src)); [lia|done].
Qed.

(** What [write_cache] does, case by case. *)
Lemma write_cache_spec w l p h u buffer len :
  wf w l → quiescent (cache w) → is_uint (space (cache w)) →
  (∀ w1, make_room w len = Ok w1 → p = NULL ∨ store w1 !! p = None) →
  (max_object_size (cache w) < to_uint len ∧
   write_cache (Some w) p h u buffer len = Ok (-1, Some w)) ∨
  (to_uint len <= max_object_size (cache w) ∧
   write_cache (Some w) p h u buffer len = Fault ∧
   to_uint (space (cache w) + sizes (store w) l) < to_uint len) ∨
  (∃ l' ev w1, to_uint len <= max_object_size (cache w) ∧
     l = l' ++ ev ∧ make_room w len = Ok w1 ∧ wf w1 l' ∧
     to_uint len <= space (cache w1) ∧
     space (cache w1) = to_uint (space (cache w) + sizes (store w) ev) ∧
     freed ev (store w) (store w1) ∧
     ((p = NULL ∧
       write_cache (Some w) p h u buffer len
       = Ok (-1, Some (with_cache (set_mutex_write 1) w1))) ∨
      (p ≠ NULL ∧ (length buffer < Z.to_nat (to_size_t len))%nat ∧
       write_cache (Some w) p h u buffer len = Fault) ∨
      (p ≠ NULL ∧ (Z.to_nat (to_size_t len) ≤ length buffer)%nat ∧
       ∃ w' b, write_cache (Some w) p h u buffer len = Ok (1, Some w') ∧
         wf w' (p :: l') ∧ quiescent (cache w') ∧
         space (cache w') = to_uint (space (cache w1) - len) ∧
         max_object_size (cache w') = max_object_size (cache w) ∧
         store w' !! p = Some b ∧
         data b = (h, u, len, take (Z.to_nat (to_size_t len)) buffer) ∧
         (∀ q, q ≠ p → data <$> store w' !! q = data <$> store w1 !! q)))).
Proof.
  intros Hw Hq Hsp Hm. rewrite write_cache_unfold.
  destruct (Z.ltb_spec (max_object_size (cache w)) (to_uint len)) as [Hlt|Hge].
  { left. done. }
  right.
  destruct (make_room_spec w l len Hw Hq Hsp)
    as [(l' & ev & w1 & -> & Hr & Hw1 & Hle & Hsp1 & Hmo & [Hrc Hmr Hmw] & Hfr & Hdom)
       |[Hr Hlt]].
  2:{ left. rewrite Hr. done. }
  right. exists l', ev, w1. rewrite Hr. simpl.
  split; [done|]. split; [done|]. split; [done|]. split; [done|].
  split; [done|]. split; [done|]. split; [done|].
  unfold create_block.
  destruct (Z.eqb_spec p NULL) as [->|Hp].
  { left. split; [done|]. simpl. unfold V. by rewrite Hmw. }
  right.
  destruct (Nat.leb_spec (Z.to_nat (to_size_t len)) (length buffer)) as [Hlen|Hlen].
  2:{ left. split; [done|]. split; [done|].
      by rewrite memcpy_fault_src. }
  right. split; [done|]. split; [done|].
  rewrite memcpy_fresh by done. simpl.
  destruct (Z.eqb_spec p NULL) as [|_]; [done|].
  destruct (Hm w1 Hr) as [|Hfresh]; [done|].
  set (b0 := mk_block len h u NULL NULL (take (Z.to_nat (to_size_t len)) buffer)).
  set (w2 := mk_world (cache w1) (<[p:=b0]> (store w1))).
  assert (Hpl : p ∉ l').
  { intros Hin. destruct Hw1 as [_ Hs _].
    destruct (seg_in _ _ _ _ _ Hs Hin) as [_ [? ?]]. congruence. }
  assert (Hw2 : wf w2 l').
  { destruct Hw1 as [Hr1 Hs1 Hnd1]. constructor; simpl; try done.
    eapply seg_frame; [|done]. intros x Hx.
    rewrite lookup_insert_ne; [done|]. by intros ->. }
  assert (Hb0 : store w2 !! p = Some b0) by (simpl; by rewrite lookup_insert_eq).
  destruct (insert_block_spec w2 l' p b0 Hw2 Hpl Hp Hb0)
    as (w3 & -> & Hw3 & Hsp3 & (Hmo3 & Hrc3 & Hmr3 & Hmw3) & Hd3 & Hdom3).
  simpl. unfold V. simpl in *.
  assert (Hb3 : ∃ b, store w3 !! p = Some b ∧ data b = data b0).
  { specialize (Hd3 p). rewrite lookup_insert_eq in Hd3.
    destruct (store w3 !! p) as [b|]; [|done]. exists b.
    split; [done|]. simpl in Hd3. congruence. }
  destruct Hb3 as (b & Hb3 & Hdb).
  eexists _, b. split; [reflexivity|]. simpl.
  split; [by apply wf_with_cache|].
  split; [constructor; simpl; [congruence|congruence|rewrite Hmw3, Hmw; done]|].
  split; [done|]. split; [congruence|]. split; [done|]. split; [done|].
  intros q Hqp. rewrite Hd3. by rewrite lookup_insert_ne.
Qed.

(** *** Calls, and the states they reach *)

Lemma inv_of_wf w l :
  wf w l → quiescent (cache w) → is_uint (space (cache w)) → inv w.
Proof. intros Hw ? ?. constructor; try done. by rewrite (wf_chain _ _ Hw). Qed.

Lemma sizes_nonneg_wf w l :
  wf w l →
  sizes_nonneg w ↔ ∀ a b, a ∈ l → store w !! a = Some b → 0 <= payload_size b.
Proof.
  intros Hw. unfold sizes_nonneg. rewrite (blocks_wf _ _ Hw), Forall_forall.
  split.
  - intros H a b Ha Hb. apply H. apply list_elem_of_omap. eauto.
  - intros H b (a & Ha & Hb)%list_elem_of_omap. eauto.
Qed.

Lemma sizes_nonneg_sum st l :
  (∀ a b, a ∈ l → st !! a = Some b → 0 <= payload_size b) → 0 <= sizes st l.
Proof.
  induction l as [|a l IH]; intros H; simpl; [lia|].
  assert (0 <= sizes st l).
  { apply IH. intros x bx Hx Hbx. apply (H x bx); [by right|done]. }
  destruct (st !! a) as [b|] eqn:Hb; simpl; [|lia].
  assert (0 <= payload_size b) by (apply (H a b); [by left|done]). lia.
Qed.

Lemma accounting_wf M w l :
  wf w l → accounting M w ↔ space (cache w) = M - sizes (store w) l.
Proof.
  intros Hw. unfold accounting.
  by rewrite (blocks_wf _ _ Hw), sum_payload_sizes.
Qed.

Lemma data_lookup (st st' : gmap Z cache_block) p b' :
  data <$> st' !! p = data <$> st !! p →
  st' !! p = Some b' → ∃ b, st !! p = Some b ∧ data b' = data b.
Proof.
  intros H Hb'. rewrite Hb' in H. destruct (st !! p) as [b|]; [|done].
  exists b. split; [done|]. simpl in H. congruence.
Qed.

Lemma int_of_small_uint len bound :
  is_int len → to_uint len <= bound → bound <= INT_MAX →
  0 <= len ∧ to_uint len = len.
Proof.
  unfold is_int, to_uint, INT_MIN, INT_MAX. intros Hi Hle Hb.
  destruct (Z_lt_le_dec len 0) as [Hneg|Hpos].
  - exfalso.
    assert (Hm : len mod 4294967296 = len + 4294967296).
    { symmetry. apply (Z.mod_unique_pos _ _ (-1)); lia. }
    lia.
  - split; [done|]. apply Z.mod_small. lia.
Qed.

Lemma wf_init m M mo w : init_cache m M mo = Some w → wf w [].
Proof.
  unfold init_cache. destruct m; [|done]. intros [= <-].
  constructor; simpl; [done|done|constructor].
Qed.

Lemma good_init M mo w :
  0 <= M <= INT_MAX → init_cache true M mo = Some w → good M w.
Proof.
  intros HM Hinit. pose proof (wf_init _ _ _ _ Hinit) as Hw.
  unfold init_cache in Hinit. injection Hinit as <-.
  assert (Hu : to_uint M = M).
  { apply to_uint_id. unfold is_uint, UINT_MAX, INT_MAX in *. lia. }
  constructor.
  - eapply inv_of_wf; [done|by constructor|]. simpl. apply to_uint_range.
  - apply (accounting_wf _ _ _ Hw). simpl. rewrite Hu. lia.
  - apply (sizes_nonneg_wf _ _ Hw). intros a b Ha. by apply not_elem_of_nil in Ha.
Qed.

Lemma good_lru_update M w l1 a l2 b w' :
  good M w → wf w (l1 ++ a :: l2) → store w !! a = Some b →
  lru_update w a = Ok w' →
  good M w' ∧ wf w' (a :: l1 ++ l2) ∧ same_data (store w) (store w') ∧
  max_object_size (cache w') = max_object_size (cache w).
Proof.
  intros [[_ Hq Hsp] Hacc Hnn] Hw Hb Hlru.
  destruct (lru_update_spec _ _ _ _ _ Hw Hb Hq Hsp)
    as (w'' & Hlru' & Hw' & Hq' & Hsp' & Hmo' & Hd & Hdom).
  rewrite Hlru in Hlru'. injection Hlru' as <-.
  split; [|done].
  assert (Hsz : sizes (store w') (a :: l1 ++ l2) = sizes (store w) (l1 ++ a :: l2)).
  { rewrite (sizes_ext (store w) (store w')) by (intros; apply Hd).
    rewrite sizes_app. simpl. rewrite sizes_app. lia. }
  constructor.
  - eapply inv_of_wf; [done|done|]. by rewrite Hsp'.
  - apply (accounting_wf _ _ _ Hw'). rewrite Hsp', Hsz.
    by apply (accounting_wf _ _ _ Hw).
  - apply (sizes_nonneg_wf _ _ Hw'). intros x bx' Hx Hbx'.
    destruct (data_lookup _ _ _ _ (Hd x) Hbx') as (bx & Hbx & Hdx).
    assert (payload_size bx' = payload_size bx) as -> by (by injection Hdx).
    apply (proj1 (sizes_nonneg_wf _ _ Hw) Hnn x bx); [|done].
    set_solver.
Qed.

Lemma good_read M w h u buffer r w' buffer' :
  good M w → read_cache (Some w) h u buffer = Ok (r, Some w', buffer') →
  good M w'.
Proof.
  intros Hg Hread. pose proof Hg as [[Hw Hq Hsp] _ _].
  destruct (read_cache_spec w _ h u buffer Hw Hq)
    as [[Hr _]|(l1 & a & l2 & b & Hl & Hb & Hk & Hfirst & Hr)].
  - rewrite Hr in Hread. by injection Hread as _ <- _.
  - rewrite Hr in Hread. rewrite Hl in Hw.
    destruct (memcpy buffer (payload b) (payload_size b)); simpl in Hread; try done.
    destruct (lru_update w a) as [w''| | |] eqn:Hlru; simpl in Hread; try done.
    injection Hread as _ <- _.
    by destruct (good_lru_update _ _ _ _ _ _ _ Hg Hw Hb Hlru).
Qed.

Lemma disjoint_of_nodup_app (l1 l2 : list Z) p :
  NoDup (l1 ++ l2) → p ∈ l1 → p ∉ l2.
Proof. intros (_ & H & _)%NoDup_app. apply H. Qed.

Lemma good_write M w p h u buffer len r w' :
  0 <= M <= INT_MAX → good M w → env_ok w (Write p h u buffer len) →
  write_cache (Some w) p h u buffer len = Ok (r, Some w') →
  good M w'.
Proof.
  intros HM Hg [Hlen Hm] Hwrite. pose proof Hg as [[Hw Hq Hsp] Hacc Hnn].
  apply (accounting_wf _ _ _ Hw) in Hacc.
  pose proof (proj1 (sizes_nonneg_wf _ _ Hw) Hnn) as Hnn'.
  destruct (write_cache_spec w _ p h u buffer len Hw Hq Hsp Hm)
    as [[_ Hr]|[(_ & Hr & _)|
         (l' & ev & w1 & Hmo & Hl & Hroom & Hw1 & Hle & Hsp1 & [Hfr Hfr'] & Hcases)]].
  { rewrite Hr in Hwrite. by injection Hwrite as _ <-. }
  { by rewrite Hr in Hwrite. }
  (* the state after the evictions *)
  assert (Hnd : NoDup (l' ++ ev)) by (rewrite <- Hl; apply Hw).
  assert (Hsz1 : sizes (store w1) l' = sizes (store w) l').
  { apply sizes_ext. intros q Hq'. apply Hfr'.
    by eapply disjoint_of_nodup_app. }
  assert (Hev : 0 <= sizes (store w) ev).
  { apply sizes_nonneg_sum. intros a b Ha. apply Hnn'. rewrite Hl. set_solver. }
  assert (Hl' : 0 <= sizes (store w) l').
  { apply sizes_nonneg_sum. intros a b Ha. apply Hnn'. rewrite Hl. set_solver. }
  rewrite Hl, sizes_app in Hacc.
  assert (Hsp1' : space (cache w1) = M - sizes (store w1) l').
  { rewrite Hsp1, Hsz1. rewrite to_uint_id; [lia|].
    unfold is_uint, UINT_MAX, INT_MAX in *. lia. }
  assert (Hnn1 : ∀ a b, a ∈ l' → store w1 !! a = Some b → 0 <= payload_size b).
  { intros a b1 Ha Hb1.
    assert (Hae : a ∉ ev) by (by eapply disjoint_of_nodup_app).
    destruct (data_lookup _ _ _ _ (Hfr' a Hae) Hb1) as (b & Hb & Hdb).
    assert (payload_size b1 = payload_size b) as -> by (by injection Hdb).
    apply (Hnn' a b); [|done]. rewrite Hl. set_solver. }
  destruct Hcases as [[-> Hr]|[(_ & _ & Hr)|(Hp & Hbuf & w'' & b & Hr & Hw'' & Hq'' & Hsp'' & Hmo'' & Hb & Hdb & Hd'')]].
  - rewrite Hr in Hwrite. injection Hwrite as _ <-.
    assert (Hw1' : wf (with_cache (set_mutex_write 1) w1) l')
      by (by apply wf_with_cache).
    destruct (make_room_spec w _ len Hw Hq Hsp) as
      [(l0 & ev0 & w0 & _ & Hroom0 & _ & _ & _ & _ & [Hrc0 Hmr0 _] & _)|[Hroom0 _]];
      rewrite Hroom in Hroom0; [injection Hroom0 as <-|done].
    constructor.
    + eapply inv_of_wf; [done|by constructor|].
      simpl. rewrite Hsp1. apply to_uint_range.
    + by apply (accounting_wf _ _ _ Hw1').
    + by apply (sizes_nonneg_wf _ _ Hw1').
  - by rewrite Hr in Hwrite.
  - rewrite Hr in Hwrite. injection Hwrite as _ <-.
    assert (Hlen' : 0 <= len ∧ to_uint len = len).
    { apply (int_of_small_uint len (space (cache w1))); [done|done|lia]. }
    destruct Hlen' as [Hlen0 Hlenu].
    assert (Hpl : p ∉ l') by (apply NoDup_cons, Hw'').
    assert (Hsz'' : sizes (store w'') l' = sizes (store w1) l').
    { apply sizes_ext. intros q Hq'. apply Hd''. by intros ->. }
    constructor.
    + eapply inv_of_wf; [done|done|]. rewrite Hsp''. apply to_uint_range.
    + apply (accounting_wf _ _ _ Hw''). simpl. rewrite Hb. simpl.
      assert (payload_size b = len) as -> by (by injection Hdb).
      rewrite Hsp'', Hsz''. rewrite to_uint_id; [lia|].
      unfold is_uint, UINT_MAX, INT_MAX in *. lia.
    + apply (sizes_nonneg_wf _ _ Hw''). intros a ba Ha Hba.
      apply elem_of_cons in Ha as [->|Ha].
      * assert (ba = b) as -> by congruence.
        assert (payload_size b = len) as -> by (by injection Hdb). done.
      * assert (Hap : a ≠ p) by (by intros ->).
        destruct (data_lookup _ _ _ _ (Hd'' a Hap) Hba) as (b1 & Hb1 & Hdb1).
        assert (payload_size ba = payload_size b1) as -> by (by injection Hdb1).
        by apply (Hnn1 a b1).
Qed.

(** C3. In every state of the cache reached from
    [init_cache(max_cache_size, _)], for a size [0 <= max_cache_size], by
    calls of [read_cache] and [write_cache] that returned (with success or
    without), [remaining_space = max_cache_size − Σ payload_size] over the
    blocks of the list. *)
Theorem accounting_invariant (max_cache_size input_max_object_size : Z) (w : world) :
  0 <= max_cache_size <= INT_MAX →
  reachable max_cache_size input_max_object_size w →
  space (cache w) = max_cache_size - sum_payload (blocks w).
Proof.
  intros HM Hreach. cut (good max_cache_size w); [by intros [_ ? _]|].
  induction Hreach as [w Hinit|w c r w' Hreach IH Henv Hrun].
  - by eapply good_init.
  - destruct c as [h u buffer|p h u buffer len]; unfold run in Hrun.
    + destruct (read_cache (Some w) h u buffer) as [[[r0 c0] b0]| | |] eqn:Hread;
        simpl in Hrun; try done.
      injection Hrun as -> ->. by eapply good_read.
    + by eapply good_write.
Qed.

Lemma count_key_cons h u b l :
  count_key h u (b :: l) =
  ((if has_key h u b then 1 else 0) + count_key h u l)%nat.
Proof.
  unfold count_key. rewrite filter_cons.
  destruct (has_key h u b); case_decide; simpl; congruence.
Qed.

Lemma count_key_0 h u l :
  count_key h u l = 0%nat ↔ ∀ b, b ∈ l → has_key h u b = false.
Proof.
  induction l as [|b l IH]; simpl.
  - split; [|done]. intros _ b Hb. by apply not_elem_of_nil in Hb.
  - rewrite count_key_cons. split.
    + intros H b' [->|Hb']%elem_of_cons.
      * destruct (has_key h u b); [simpl in H; lia|done].
      * apply IH; [|done]. destruct (has_key h u b); simpl in H; lia.
    + intros H. rewrite (H b) by (by left). simpl. apply IH.
      intros b' Hb'. apply H. by right.
Qed.

Lemma elem_of_blocks w l a b :
  wf w l → a ∈ l → store w !! a = Some b → b ∈ blocks w.
Proof.
  intros Hw Ha Hb. rewrite (blocks_wf _ _ Hw). apply list_elem_of_omap. eauto.
Qed.

(** C9. On a key that no block of the cache has, [read_cache] returns [-1]
    and leaves the cache (the list, its order, [space], every block) and
    the caller's buffer as they were. *)
Theorem read_miss_unchanged (w : world) (h u : string) (buffer : list byte) :
  inv w → count_key h u (blocks w) = 0%nat →
  read_cache (Some w) h u buffer = Ok (-1, Some w, buffer).
Proof.
  intros [Hw Hq _] Hcount. eapply read_cache_miss; [done|done|].
  intros a b Ha Hb. apply (proj1 (count_key_0 h u _) Hcount).
  by eapply elem_of_blocks.
Qed.

Lemma contents_wf w l : wf w l → contents w = datas (store w) l.
Proof.
  intros Hw. unfold contents, datas. rewrite (blocks_wf _ _ Hw). clear Hw.
  induction l as [|a l IH]; [done|].
  change (map data (omap (fun p => store w !! p) (a :: l)))
    with (map data (match store w !! a with
                    | Some y => y :: omap (fun p => store w !! p) l
                    | None => omap (fun p => store w !! p) l
                    end)).
  change (omap (fun a0 => data <$> store w !! a0) (a :: l))
    with (match data <$> store w !! a with
          | Some y => y :: omap (fun a0 => data <$> store w !! a0) l
          | None => omap (fun a0 => data <$> store w !! a0) l
          end).
  destruct (store w !! a); simpl; by rewrite IH.
Qed.

Lemma datas_app st l1 l2 : datas st (l1 ++ l2) = datas st l1 ++ datas st l2.
Proof. apply omap_app. Qed.

Lemma datas_ext st st' l :
  (∀ p, p ∈ l → data <$> st' !! p = data <$> st !! p) →
  datas st' l = datas st l.
Proof.
  induction l as [|a l IH]; intros H; simpl; [done|]. unfold datas in *.
  simpl. rewrite (H a) by (by left).
  rewrite IH; [done|]. intros p Hp. apply H. by right.
Qed.

Lemma accounted_eviction M w len :
  accounted M w → M <= INT_MAX → 0 <= len <= M → space (cache w) < len →
  ∃ a b w1,
    chain w = chain w1 ++ [a] ∧ store w !! a = Some b ∧
    contents w = contents w1 ++ [data b] ∧
    eviction w = Ok w1 ∧
    space (cache w1) = space (cache w) + payload_size b ∧
    accounted M w1.
Proof.
  intros [Hw Hsp Hacc Hnn] HM Hlen Hlt.
  apply (accounting_wf _ _ _ Hw) in Hacc.
  pose proof (proj1 (sizes_nonneg_wf _ _ Hw) Hnn) as Hnn'.
  destruct (chain w) as [|x l0 _] eqn:Hl using rev_ind.
  { simpl in Hacc. lia. }
  assert (Hx : x ≠ NULL ∧ is_Some (store w !! x)).
  { destruct Hw as [_ Hs _]. eapply seg_in; [done|]. set_solver. }
  destruct Hx as [Hx [b Hb]].
  destruct (eviction_snoc _ _ _ _ Hw Hb)
    as (w1 & Hev & Hw1 & Hsp1 & Hc1 & [Hfr1 Hfr1'] & Hdom1).
  assert (Hxl : x ∉ l0).
  { destruct Hw as [_ _ Hnd]. intros Hin.
    eapply disjoint_of_nodup_app; [done|done|set_solver]. }
  assert (Hext : ∀ p, p ∈ l0 → data <$> store w1 !! p = data <$> store w !! p).
  { intros p Hp. apply Hfr1'. intros ->%list_elem_of_singleton. done. }
  assert (Hl0 : 0 <= sizes (store w) l0).
  { apply sizes_nonneg_sum. intros a ba Ha. apply Hnn'. set_solver. }
  assert (Hb0 : 0 <= payload_size b) by (apply (Hnn' x b); [set_solver|done]).
  rewrite sizes_app in Hacc. simpl in Hacc. rewrite Hb in Hacc. simpl in Hacc.
  assert (Hsp1' : space (cache w1) = space (cache w) + payload_size b).
  { rewrite Hsp1. apply to_uint_id. unfold is_uint, UINT_MAX, INT_MAX in *. lia. }
  exists x, b, w1. rewrite (wf_chain _ _ Hw1).
  split; [done|]. split; [done|]. split; [|split; [done|split; [done|]]].
  - rewrite (contents_wf w (l0 ++ [x])), (contents_wf _ _ Hw1) by done.
    rewrite datas_app, (datas_ext _ _ _ Hext). unfold datas at 3. simpl.
    by rewrite Hb.
  - constructor.
    + by rewrite (wf_chain _ _ Hw1).
    + rewrite Hsp1. apply to_uint_range.
    + apply (accounting_wf _ _ _ Hw1).
      rewrite Hsp1', (sizes_ext _ _ _ Hext). lia.
    + apply (sizes_nonneg_wf _ _ Hw1). intros a ba' Ha Hba'.
      destruct (data_lookup _ _ _ _ (Hext a Ha) Hba') as (ba & Hba & Hdb).
      assert (payload_size ba' = payload_size ba) as -> by (by injection Hdb).
      apply (Hnn' a ba); [set_solver|done].
Qed.

(** C10. In a cache whose [space] is accounted for, a [write_cache] with
    [0 <= len <= max_cache_size] runs an eviction loop that terminates:
    whenever the guard [space < len] holds the list is not empty, an
    iteration frees exactly its last block and adds that block's payload
    size to [space], and with fuel for one more iteration than the list
    has blocks (as [write_cache] has) the loop returns, having freed a
    suffix of the list, with [len <= space]. *)
Theorem eviction_loop_terminates (M : Z) (w : world) (len : Z) :
  accounted M w → M <= INT_MAX → 0 <= len <= M →
  (space (cache w) < len →
   blocks w ≠ [] ∧
   ∃ b w1, eviction w = Ok w1 ∧ contents w = contents w1 ++ [data b] ∧
           space (cache w1) = space (cache w) + payload_size b ∧
           accounted M w1) ∧
  (length (chain w) < enough w)%nat ∧
  ∀ fuel, (length (chain w) < fuel)%nat →
    ∃ w' evicted, evict_loop fuel w len = Ok w' ∧
      contents w = contents w' ++ evicted ∧
      space (cache w') =
        space (cache w) + foldr (fun d acc => d.1.2 + acc) 0 evicted ∧
      len <= space (cache w') ∧ accounted M w'.
Proof.
  intros Hacc HM Hlen. split; [|split].
  - intros Hlt.
    destruct (accounted_eviction _ _ _ Hacc HM Hlen Hlt)
      as (a & b & w1 & Hch & Hb & Hco & Hev & Hsp & Hacc1).
    split.
    + intros Hnil. unfold contents in Hco. rewrite Hnil in Hco.
      by destruct (map data (blocks w1)).
    + by exists b, w1.
  - destruct Hacc as [[_ Hs Hnd] _ _ _]. apply seg_length in Hs; [|done].
    unfold enough. lia.
  - intros fuel. revert w Hacc.
    assert (Hlenu : to_uint len = len).
    { apply to_uint_id. unfold is_uint, UINT_MAX, INT_MAX in *. lia. }
    induction fuel as [|fuel IH]; intros w Hacc Hf; [lia|]. simpl.
    rewrite Hlenu.
    destruct (Z.ltb_spec (space (cache w)) len) as [Hlt|Hge].
    + destruct (accounted_eviction _ _ _ Hacc HM Hlen Hlt)
        as (a & b & w1 & Hch & Hb & Hco & -> & Hsp & Hacc1).
      simpl. rewrite Hch, length_app in Hf. simpl in Hf.
      destruct (IH w1 Hacc1 ltac:(lia)) as (w' & ev & -> & Hco' & Hsp' & Hle & Hacc').
      exists w', (ev ++ [data b]). split; [done|]. split; [|split; [|done]].
      * by rewrite Hco, Hco', app_assoc.
      * rewrite Hsp', Hsp, foldr_app. simpl.
        clear. induction ev as [|d ev IHev]; simpl; lia.
    + exists w, []. rewrite app_nil_r. simpl. split; [done|].
      split; [done|]. split; [lia|]. split; [lia|done].
Qed.

(** *** Calls, seen on the contents *)

Lemma has_key_data h u b : has_key h u b = dhas_key h u (data b).
Proof. reflexivity. Qed.

Lemma dhas_key_eq h u h' u' d :
  dhas_key h u d = true → dhas_key h' u' d = true → h' = h ∧ u' = u.
Proof.
  unfold dhas_key. intros [H1 H2]%andb_prop [H3 H4]%andb_prop.
  apply String.eqb_eq in H1, H2, H3, H4. split; congruence.
Qed.

Lemma dhas_key_own h u len pl : dhas_key h u (h, u, len, pl) = true.
Proof. unfold dhas_key. simpl. by rewrite !String.eqb_refl. Qed.

Lemma dhas_key_other h u h' u' len pl :
  ¬ (h' = h ∧ u' = u) → dhas_key h u (h', u', len, pl) = false.
Proof.
  intros Hne. unfold dhas_key. simpl.
  destruct (String.eqb_spec h' h), (String.eqb_spec u' u); simpl; tauto.
Qed.

Lemma datas_no_key st l h u :
  (∀ a b, a ∈ l → st !! a = Some b → has_key h u b = false) →
  Forall (fun d => dhas_key h u d = false) (datas st l).
Proof.
  intros H. apply Forall_forall. intros d (a & Ha & Hd)%list_elem_of_omap.
  destruct (st !! a) as [b|] eqn:Hb; [|done]. injection Hd as <-.
  rewrite <- has_key_data. by eapply H.
Qed.

(** A [read_cache] that returns: a miss changes nothing, a hit copies the
    payload of the first entry with the key and moves it to the head. *)
Lemma read_contents w h u buffer r w' buffer' :
  inv w → read_cache (Some w) h u buffer = Ok (r, Some w', buffer') →
  inv w' ∧
  ((r = -1 ∧ w' = w ∧ buffer' = buffer ∧
    Forall (fun d => dhas_key h u d = false) (contents w)) ∨
   (∃ ds1 d ds2, contents w = ds1 ++ d :: ds2 ∧ dhas_key h u d = true ∧
      Forall (fun d => dhas_key h u d = false) ds1 ∧
      contents w' = d :: ds1 ++ ds2 ∧ r = d.1.2 ∧
      memcpy buffer d.2 d.1.2 = Ok buffer')).
Proof.
  intros Hi Hread. pose proof Hi as [Hw Hq Hsp].
  destruct (read_cache_spec w _ h u buffer Hw Hq)
    as [[Hr Hmiss]|(l1 & a & l2 & b & Hl & Hb & Hk & Hfirst & Hr)].
  - rewrite Hr in Hread. injection Hread as <- <- <-.
    split; [done|]. left. repeat split; try done.
    rewrite (contents_wf _ _ Hw). by apply datas_no_key.
  - rewrite Hr in Hread. rewrite Hl in Hw.
    destruct (memcpy buffer (payload b) (payload_size b)) as [bf| | |] eqn:Hcp;
      simpl in Hread; try done.
    destruct (lru_update_spec _ _ _ _ _ Hw Hb Hq Hsp)
      as (w'' & Hlru & Hw' & Hq' & Hsp' & Hmo' & Hd & Hdom).
    rewrite Hlru in Hread. simpl in Hread. injection Hread as <- <- <-.
    split; [eapply inv_of_wf; [done|done|by rewrite Hsp']|].
    right. exists (datas (store w) l1), (data b), (datas (store w) l2).
    split; [|split; [|split; [|split; [|split]]]]; try done.
    + rewrite (contents_wf _ _ Hw), datas_app. unfold datas at 1. simpl.
      by rewrite Hb.
    + by apply datas_no_key.
    + rewrite (contents_wf _ _ Hw').
      rewrite (datas_ext (store w) (store w'')) by (intros; apply Hd).
      change (a :: l1 ++ l2) with ([a] ++ l1 ++ l2).
      rewrite !datas_app. unfold datas at 1. simpl. by rewrite Hb.
Qed.

(** A [write_cache] that returns keeps a prefix of the contents (what it
    does not evict) and, on success, puts the new entry in front of it. *)
Lemma write_contents w p h u buffer len r w' :
  inv w → env_ok w (Write p h u buffer len) →
  write_cache (Some w) p h u buffer len = Ok (r, Some w') →
  inv w' ∧
  ∃ kept evicted, contents w = kept ++ evicted ∧
    ((r = -1 ∧ contents w' = kept) ∨
     (r = 1 ∧ (Z.to_nat (to_size_t len) ≤ length buffer)%nat ∧
      contents w' = (h, u, len, take (Z.to_nat (to_size_t len)) buffer) :: kept)).
Proof.
  intros Hi [Hlen Hm] Hwrite. pose proof Hi as [Hw Hq Hsp].
  destruct (write_cache_spec w _ p h u buffer len Hw Hq Hsp Hm)
    as [[_ Hr]|[(_ & Hr & _)|
         (l' & ev & w1 & Hmo & Hl & Hroom & Hw1 & Hle & Hsp1 & [Hfr Hfr'] & Hcases)]].
  { rewrite Hr in Hwrite. injection Hwrite as <- <-. split; [done|].
    exists (contents w), []. rewrite app_nil_r. split; [done|]. by left. }
  { by rewrite Hr in Hwrite. }
  assert (Hnd : NoDup (l' ++ ev)) by (rewrite <- Hl; apply Hw).
  assert (Hext : ∀ q, q ∈ l' → data <$> store w1 !! q = data <$> store w !! q).
  { intros q Hq'. apply Hfr'. by eapply disjoint_of_nodup_app. }
  assert (Hco : contents w = datas (store w1) l' ++ datas (store w) ev).
  { rewrite (contents_wf _ _ Hw), Hl, datas_app. by rewrite (datas_ext _ _ _ Hext). }
  destruct Hcases as [[-> Hr]|[(_ & _ & Hr)|(Hp & Hbuf & w'' & b & Hr & Hw'' & Hq'' & Hsp'' & Hmo'' & Hb & Hdb & Hd'')]].
  - rewrite Hr in Hwrite. injection Hwrite as <- <-.
    assert (Hw1' : wf (with_cache (set_mutex_write 1) w1) l')
      by (by apply wf_with_cache).
    destruct (make_room_spec w _ len Hw Hq Hsp) as
      [(l0 & ev0 & w0 & _ & Hroom0 & _ & _ & _ & _ & [Hrc0 Hmr0 _] & _)|[Hroom0 _]];
      rewrite Hroom in Hroom0; [injection Hroom0 as <-|done].
    split.
    + eapply inv_of_wf; [done|by constructor|].
      simpl. rewrite Hsp1. apply to_uint_range.
    + exists (datas (store w1) l'), (datas (store w) ev). split; [done|].
      left. split; [done|]. by rewrite (contents_wf _ _ Hw1').
  - by rewrite Hr in Hwrite.
  - rewrite Hr in Hwrite. injection Hwrite as <- <-.
    split.
    + eapply inv_of_wf; [done|done|]. rewrite Hsp''. apply to_uint_range.
    + exists (datas (store w1) l'), (datas (store w) ev). split; [done|].
      right. split; [done|]. split; [done|].
      assert (Hpl : p ∉ l') by (apply NoDup_cons, Hw'').
      rewrite (contents_wf _ _ Hw'').
      change (p :: l') with ([p] ++ l'). rewrite datas_app.
      unfold datas at 1. simpl. rewrite Hb. simpl. rewrite Hdb. f_equal.
      apply datas_ext. intros q Hq'. apply Hd''. by intros ->.
Qed.

Lemma count_key_contents h u w :
  count_key h u (blocks w)
  = length (filter (fun d => dhas_key h u d = true) (contents w)).
Proof.
  unfold count_key, contents. induction (blocks w) as [|b l IH]; [done|].
  rewrite fmap_cons, !filter_cons, <- has_key_data.
  destruct (decide (has_key h u b = true)); simpl; by rewrite IH.
Qed.

Lemma first_key_app_l h u ds1 ds2 d :
  first_key h u ds1 = Some d → first_key h u (ds1 ++ ds2) = Some d.
Proof.
  unfold first_key. induction ds1 as [|x ds1 IH]; simpl; [done|].
  destruct (dhas_key h u x); [done|apply IH].
Qed.

Lemma first_key_skip h u ds1 ds2 :
  Forall (fun d => dhas_key h u d = false) ds1 →
  first_key h u (ds1 ++ ds2) = first_key h u ds2.
Proof.
  unfold first_key. induction 1 as [|x ds1 Hx _ IH]; simpl; [done|].
  by rewrite Hx.
Qed.

Lemma first_key_drop h u ds1 d ds2 :
  dhas_key h u d = false →
  first_key h u (ds1 ++ d :: ds2) = first_key h u (ds1 ++ ds2).
Proof.
  intros Hd. unfold first_key. induction ds1 as [|x ds1 IH]; simpl.
  - by rewrite Hd.
  - destruct (dhas_key h u x); [done|apply IH].
Qed.

Lemma newest_undisturbed h u d w w' :
  newest h u d w → undisturbed h u w w' → newest h u d w'.
Proof.
  intros Hn Hund. induction Hund as [|w w' c r w'' Hund IH Henv Hnw Hrun];
    [done|].
  specialize (IH Hn). destruct IH as [Hi Hfirst].
  destruct c as [h' u' buffer|p h' u' buffer len]; unfold run in Hrun.
  - destruct (read_cache (Some w') h' u' buffer) as [[[r0 c0] b0]| | |] eqn:Hread;
      simpl in Hrun; try done.
    injection Hrun as -> ->.
    destruct (read_contents _ _ _ _ _ _ _ Hi Hread)
      as [Hi'' [(_ & -> & _ & _)|(ds1 & d0 & ds2 & Hco & Hk & Hno & Hco' & _ & _)]].
    { done. }
    split; [done|]. intros d'. rewrite Hco'. rewrite Hco in Hfirst.
    destruct (dhas_key h u d0) eqn:Hk0.
    + (* the entry read has the key [(h, u)]: it was the first one *)
      destruct (dhas_key_eq _ _ _ _ _ Hk Hk0) as [-> ->].
      unfold first_key at 1. simpl. rewrite Hk0. intros [= <-].
      apply Hfirst. rewrite first_key_skip by done.
      unfold first_key. simpl. by rewrite Hk0.
    + change (d0 :: ds1 ++ ds2) with ([d0] ++ ds1 ++ ds2).
      rewrite first_key_skip by (by repeat constructor).
      intros Hd'. apply Hfirst. by rewrite first_key_drop.
  - destruct (write_contents _ _ _ _ _ _ _ _ Hi Henv Hrun)
      as [Hi'' (kept & ev & Hco & [[_ Hco']|(_ & _ & Hco')])].
    + split; [done|]. rewrite Hco'. intros d' Hd'. apply Hfirst.
      rewrite Hco. by apply first_key_app_l.
    + split; [done|]. rewrite Hco'. intros d'.
      unfold first_key at 1. simpl.
      rewrite dhas_key_other by done.
      intros Hd'. apply Hfirst. rewrite Hco. by apply first_key_app_l.
Qed.

Lemma to_size_t_small len : 0 <= len → is_int len → to_size_t len = len.
Proof.
  unfold is_int, INT_MAX, to_size_t. intros H0 H1. apply Z.mod_small. lia.
Qed.

(** C6. After a successful [write_cache(cache, host, uri, V, len)], and
    after any further calls that return and do not write the same key, if
    the key is still in the cache (the entry was not evicted) then
    [read_cache(cache, host, uri, buf)] returns [len] and copies the bytes
    [V[0..len)] to the start of [buf]. *)
Theorem read_after_write (w0 w1 w2 : world) (p : ptr) (h u : string)
    (V buffer : list byte) (len : Z) :
  inv w0 → env_ok w0 (Write p h u V len) → 0 <= len →
  write_cache (Some w0) p h u V len = Ok (1, Some w1) →
  undisturbed h u w1 w2 →
  count_key h u (blocks w2) ≠ 0%nat →
  (Z.to_nat len ≤ length buffer)%nat →
  ∃ w3, read_cache (Some w2) h u buffer
        = Ok (len, Some w3, take (Z.to_nat len) V ++ drop (Z.to_nat len) buffer).
Proof.
  intros Hi0 Henv Hlen0 Hwrite Hund Hpresent Hbuf.
  pose proof Henv as [Hlen _].
  pose proof (to_size_t_small _ Hlen0 Hlen) as Hsz.
  destruct (write_contents _ _ _ _ _ _ _ _ Hi0 Henv Hwrite)
    as [Hi1 (kept & ev & Hco & [[? _]|(_ & HV & Hco1)])]; [lia|].
  rewrite Hsz in HV, Hco1.
  set (d := (h, u, len, take (Z.to_nat len) V)) in *.
  assert (Hn1 : newest h u d w1).
  { split; [done|]. rewrite Hco1. unfold first_key. simpl.
    unfold d at 1. rewrite dhas_key_own. by intros d' [= <-]. }
  destruct (newest_undisturbed _ _ _ _ _ Hn1 Hund) as [Hi2 Hfirst].
  pose proof Hi2 as [Hw2 Hq2 Hsp2].
  destruct (read_cache_spec w2 _ h u buffer Hw2 Hq2)
    as [[_ Hmiss]|(l1 & a & l2 & b & Hl & Hb & Hk & Hno & Hr)].
  { exfalso. apply Hpresent. apply count_key_0. intros b Hb.
    rewrite (blocks_wf _ _ Hw2) in Hb.
    apply list_elem_of_omap in Hb as (a & Ha & Hb). by eapply Hmiss. }
  assert (Hdb : data b = d).
  { apply Hfirst. rewrite (contents_wf _ _ Hw2), Hl, datas_app.
    rewrite first_key_skip by (by apply datas_no_key).
    unfold datas, first_key. simpl. rewrite Hb. simpl.
    by rewrite <- has_key_data, Hk. }
  rewrite Hl in Hw2.
  destruct (lru_update_spec _ _ _ _ _ Hw2 Hb Hq2 Hsp2) as (w3 & Hlru & _).
  exists w3. rewrite Hr, Hlru.
  assert (payload_size b = len) as -> by (by injection Hdb).
  assert (payload b = take (Z.to_nat len) V) as -> by (by injection Hdb).
  unfold memcpy. rewrite Hsz, length_take.
  destruct (Nat.leb_spec (Z.to_nat len) (Z.to_nat len `min` length V)); [|lia].
  destruct (Nat.leb_spec (Z.to_nat len) (length buffer)); [|lia].
  simpl. by rewrite take_take, Nat.min_id.
Qed.

(** *** Keys are not unique *)

Lemma dcount_app h u ds1 ds2 :
  dcount h u (ds1 ++ ds2) = (dcount h u ds1 + dcount h u ds2)%nat.
Proof. unfold dcount. by rewrite filter_app, length_app. Qed.

Lemma dcount_cons h u d ds :
  dcount h u (d :: ds) = ((if dhas_key h u d then 1 else 0) + dcount h u ds)%nat.
Proof.
  unfold dcount. rewrite filter_cons.
  destruct (dhas_key h u d); case_decide; simpl; congruence.
Qed.

Lemma make_room_enough w len :
  quiescent (cache w) → to_uint len <= space (cache w) →
  make_room w len = Ok (with_cache (set_mutex_write 0) w).
Proof.
  intros [_ _ Hmw] Hle. unfold make_room, P. rewrite Hmw. simpl.
  destruct (Z.ltb_spec (space (cache w)) (to_uint len)); [lia|done].
Qed.

(** C4, as amended. [write_cache] does not look for the key it writes. In
    the states reached by calls where [write_cache] is only issued for a
    key that is not in the cache, no two blocks share a key; but a
    successful [write_cache] that has room without evicting adds a block
    to those that have the key already, so that two successful writes of
    one key in a row leave two blocks with it. *)
Theorem keys_unique_when_written_after_miss :
  (∀ M mo w, reachable_miss_first M mo w → unique_keys w) ∧
  (∀ w p h u buffer len w',
     inv w → env_ok w (Write p h u buffer len) →
     to_uint len <= space (cache w) →
     write_cache (Some w) p h u buffer len = Ok (1, Some w') →
     count_key h u (blocks w') = S (count_key h u (blocks w))).
Proof.
  split.
  - intros M mo w Hreach.
    cut (inv w ∧ unique_keys w); [tauto|].
    induction Hreach as [w Hinit|w c r w' Hreach [Hi Hun] Henv Hmiss Hrun].
    + pose proof (wf_init _ _ _ _ Hinit) as Hw.
      unfold init_cache in Hinit. injection Hinit as <-. split.
      * eapply inv_of_wf; [done|by constructor|apply to_uint_range].
      * intros h u. rewrite (blocks_wf _ _ Hw). simpl. unfold count_key.
        simpl. lia.
    + destruct c as [h' u' buffer|p h' u' buffer len]; unfold run in Hrun.
      * destruct (read_cache (Some w) h' u' buffer) as [[[r0 c0] b0]| | |] eqn:Hread;
          simpl in Hrun; try done.
        injection Hrun as -> ->.
        destruct (read_contents _ _ _ _ _ _ _ Hi Hread)
          as [Hi' [(_ & -> & _ & _)|(ds1 & d0 & ds2 & Hco & _ & _ & Hco' & _ & _)]];
          [done|].
        split; [done|]. intros h u. specialize (Hun h u).
        rewrite count_key_contents in *. fold (dcount h u (contents w)) in Hun.
        fold (dcount h u (contents w')). rewrite Hco' , dcount_cons, dcount_app.
        rewrite Hco, dcount_app, dcount_cons in Hun. lia.
      * destruct (write_contents _ _ _ _ _ _ _ _ Hi Henv Hrun)
          as [Hi' (kept & ev & Hco & [[_ Hco']|(_ & _ & Hco')])].
        -- split; [done|]. intros h u. specialize (Hun h u).
           rewrite count_key_contents in *. fold (dcount h u (contents w)) in Hun.
           fold (dcount h u (contents w')). rewrite Hco'.
           rewrite Hco, dcount_app in Hun. lia.
        -- split; [done|]. intros h u. specialize (Hun h u).
           specialize (Hmiss _ _ _ _ _ eq_refl).
           rewrite count_key_contents in *. fold (dcount h u (contents w)) in Hun.
           fold (dcount h' u' (contents w)) in Hmiss.
           fold (dcount h u (contents w')). rewrite Hco', dcount_cons.
           rewrite Hco, dcount_app in Hun, Hmiss.
           destruct (dhas_key h u _) eqn:Hk; [|lia].
           assert (h' = h ∧ u' = u) as [-> ->].
           { unfold dhas_key in Hk. simpl in Hk.
             apply andb_prop in Hk as [H1 H2].
             by apply String.eqb_eq in H1, H2. }
           lia.
  - intros w p h u buffer len w' Hi Henv Hle Hwrite.
    pose proof Hi as [Hw Hq Hsp]. pose proof Henv as [Hlen Hm].
    pose proof (make_room_enough _ _ Hq Hle) as Hroom.
    destruct (write_cache_spec w _ p h u buffer len Hw Hq Hsp Hm)
      as [[_ Hr]|[(_ & Hr & _)|
           (l' & ev & w1 & Hmo & Hl & Hroom' & Hw1 & _ & _ & _ & Hcases)]].
    { rewrite Hr in Hwrite. by injection Hwrite. }
    { by rewrite Hr in Hwrite. }
    rewrite Hroom in Hroom'. injection Hroom' as <-.
    assert (l' = chain w) as ->.
    { eapply wf_unique; [done|]. by apply wf_with_cache. }
    destruct (write_contents _ _ _ _ _ _ _ _ Hi Henv Hwrite)
      as [_ (kept & ev' & Hco & [[? _]|(_ & _ & Hco')])]; [lia|].
    destruct Hcases as [[_ Hr]|[(_ & _ & Hr)|(Hp & _ & w'' & b & Hr & Hw'' & _)]];
      rewrite Hr in Hwrite; try done.
    injection Hwrite as ->.
    assert (Hlen' : length (contents w') = S (length (contents w))).
    { rewrite (contents_wf _ _ Hw''), (contents_wf _ _ Hw).
      assert (Hall : ∀ w0 l0, wf w0 l0 → length (datas (store w0) l0) = length l0).
      { intros w0 l0 [_ Hs _]. clear -Hs. revert Hs. generalize NULL at 1.
        induction l0 as [|x l0 IH]; intros prev; simpl; [done|].
        intros (_ & bx & Hbx & _ & _ & Hs). unfold datas in *. simpl.
        rewrite Hbx. simpl. f_equal. by eapply IH. }
      rewrite !Hall by done. done. }
    rewrite Hco', Hco in Hlen'. simpl in Hlen'. rewrite length_app in Hlen'.
    assert (ev' = []) as -> by (destruct ev'; [done|simpl in Hlen'; lia]).
    rewrite app_nil_r in Hco. rewrite !count_key_contents, Hco', Hco.
    fold (dcount h u kept).
    fold (dcount h u ((h, u, len, take (Z.to_nat (to_size_t len)) buffer) :: kept)).
    by rewrite dcount_cons, dhas_key_own.
Qed.

(** *** The properties on example runs *)

Lemma is_int_1 : is_int 1.
Proof. unfold is_int, INT_MIN, INT_MAX. lia. Defined.

Lemma env_ok_fresh_cache :
  env_ok fresh_cache (Write 1 "h" "/u" ["a"%byte] 1).
Proof.
  split; [apply is_int_1|]. intros w1 H. right.
  vm_compute in H. injection H as <-. reflexivity.
Defined.

Lemma env_ok_one_entry h u buffer :
  env_ok one_entry (Write 2 h u buffer 1).
Proof.
  split; [apply is_int_1|]. intros w1 H. right.
  vm_compute in H. injection H as <-. reflexivity.
Defined.

Lemma reachable_two_entries : reachable 100 100 two_entries.
Proof.
  eapply (reachable_call _ _ one_entry (Write 2 "h" "/u" ["b"%byte] 1) 1).
  - eapply (reachable_call _ _ fresh_cache (Write 1 "h" "/u" ["a"%byte] 1) 1).
    + by apply reachable_init.
    + apply env_ok_fresh_cache.
    + reflexivity.
  - apply env_ok_one_entry.
  - reflexivity.
Defined.

Lemma inv_fresh_cache : inv fresh_cache.
Proof.
  apply (inv_of_wf _ []).
  - constructor; [done|done|constructor].
  - by constructor.
  - unfold is_uint, UINT_MAX. simpl. lia.
Defined.

Lemma inv_one_entry : inv one_entry.
Proof.
  apply (inv_of_wf _ [1]).
  - constructor; [done| |repeat constructor; set_solver].
    split; [done|]. eexists. split; [reflexivity|]. done.
  - by constructor.
  - unfold is_uint, UINT_MAX. simpl. lia.
Defined.

Lemma wf_two_entries : wf two_entries [2; 1].
Proof.
  constructor; [done| |repeat constructor; set_solver].
  split; [done|]. eexists. split; [reflexivity|].
  split; [done|]. split; [done|].
  split; [done|]. eexists. split; [reflexivity|]. done.
Defined.

Lemma accounting_invariant_witness :
  0 <= 100 <= INT_MAX ∧ reachable 100 100 two_entries ∧
  space (cache two_entries) = 100 - sum_payload (blocks two_entries).
Proof.
  assert (H : 0 <= 100 <= INT_MAX) by (unfold INT_MAX; lia).
  split; [exact H|]. split; [exact reachable_two_entries|].
  exact (accounting_invariant 100 100 two_entries H reachable_two_entries).
Defined.

Lemma read_miss_unchanged_witness :
  inv one_entry ∧ count_key "x" "/y" (blocks one_entry) = 0%nat ∧
  read_cache (Some one_entry) "x" "/y" ["0"%byte]
  = Ok (-1, Some one_entry, ["0"%byte]).
Proof.
  split; [exact inv_one_entry|]. split; [reflexivity|].
  exact (read_miss_unchanged one_entry "x" "/y" ["0"%byte] inv_one_entry eq_refl).
Defined.

Lemma accounted_two_entries : accounted 100 two_entries.
Proof.
  pose proof wf_two_entries as Hw. constructor.
  - by rewrite (wf_chain _ _ Hw).
  - unfold is_uint, UINT_MAX. simpl. lia.
  - reflexivity.
  - repeat constructor; simpl; lia.
Defined.

Lemma eviction_loop_terminates_witness :
  accounted 100 two_entries ∧ 100 <= INT_MAX ∧ 0 <= 99 <= 100 ∧
  ∃ w' evicted, evict_loop 3 two_entries 99 = Ok w' ∧
    contents two_entries = contents w' ++ evicted ∧
    99 <= space (cache w').
Proof.
  assert (HM : 100 <= INT_MAX) by (unfold INT_MAX; lia).
  assert (Hlen : 0 <= 99 <= 100) by lia.
  split; [exact accounted_two_entries|]. split; [exact HM|]. split; [exact Hlen|].
  destruct (eviction_loop_terminates 100 two_entries 99
              accounted_two_entries HM Hlen) as (_ & _ & Hloop).
  destruct (Hloop 3%nat) as (w' & ev & Hr & Hco & _ & Hle & _).
  { rewrite (wf_chain _ _ wf_two_entries). simpl. lia. }
  by exists w', ev.
Defined.

Lemma read_after_write_witness :
  inv fresh_cache ∧ env_ok fresh_cache (Write 1 "h" "/u" ["a"%byte] 1) ∧
  0 <= 1 ∧
  write_cache (Some fresh_cache) 1 "h" "/u" ["a"%byte] 1 = Ok (1, Some one_entry) ∧
  undisturbed "h" "/u" one_entry other_entry ∧
  count_key "h" "/u" (blocks other_entry) ≠ 0%nat ∧
  (Z.to_nat 1 ≤ length ["0"%byte; "0"%byte])%nat ∧
  ∃ w3, read_cache (Some other_entry) "h" "/u" ["0"%byte; "0"%byte]
        = Ok (1, Some w3, ["a"%byte; "0"%byte]).
Proof.
  assert (Hund : undisturbed "h" "/u" one_entry other_entry).
  { eapply (undisturbed_call _ _ _ one_entry (Write 2 "x" "/y" ["c"%byte] 1) 1).
    - apply undisturbed_refl.
    - apply env_ok_one_entry.
    - simpl. intros [H _]. discriminate H.
    - reflexivity. }
  assert (Hcount : count_key "h" "/u" (blocks other_entry) ≠ 0%nat)
    by (vm_compute; discriminate).
  assert (Hbuf : (Z.to_nat 1 ≤ length ["0"%byte; "0"%byte])%nat)
    by (simpl; lia).
  split; [exact inv_fresh_cache|]. split; [exact env_ok_fresh_cache|].
  split; [lia|]. split; [reflexivity|]. split; [exact Hund|].
  split; [exact Hcount|]. split; [exact Hbuf|].
  exact (read_after_write fresh_cache one_entry other_entry 1 "h" "/u"
           ["a"%byte] ["0"%byte; "0"%byte] 1
           inv_fresh_cache env_ok_fresh_cache ltac:(lia) eq_refl Hund Hcount Hbuf).
Defined.

(** Scenario E of the specification: after
    [write(cache, "h", "/u", "hello", 5)], [read(cache, "h", "/u", buf)]
    returns 5 and [buf[0..5)] is ["hello"]. *)
Example scenario_cache_hit :
  let w := or_else (write_cache (Some fresh_cache) 1 "h" "/u"
                      (list_byte_of_string "hello") 5) fresh_cache in
  read_value (read_cache (Some w) "h" "/u" (list_byte_of_string "........"))
  = Ok (5, list_byte_of_string "hello...").
Proof. by vm_compute. Qed.

(** C4 as stated fails: two [write_cache] calls with the same key, both
    successful and with nothing evicted, leave two blocks with it. *)
Lemma write_same_key_twice :
  write_cache (Some fresh_cache) 1 "h" "/u" ["a"%byte] 1 = Ok (1, Some one_entry) ∧
  write_cache (Some one_entry) 2 "h" "/u" ["b"%byte] 1 = Ok (1, Some two_entries) ∧
  reachable 100 100 two_entries ∧
  count_key "h" "/u" (blocks two_entries) = 2%nat ∧
  ¬ unique_keys two_entries.
Proof.
  split; [reflexivity|]. split; [reflexivity|].
  split; [exact reachable_two_entries|]. split; [reflexivity|].
  intros H. specialize (H "h" "/u"). vm_compute in H. lia.
Qed.

Lemma miss_first_one_entry : reachable_miss_first 100 100 one_entry.
Proof.
  eapply (miss_first_call _ _ fresh_cache (Write 1 "h" "/u" ["a"%byte] 1) 1).
  - by apply miss_first_init.
  - apply env_ok_fresh_cache.
  - intros p h u buffer len [= _ <- <- _ _]. reflexivity.
  - reflexivity.
Defined.

Lemma keys_unique_when_written_after_miss_witness :
  reachable_miss_first 100 100 one_entry ∧ unique_keys one_entry ∧
  inv one_entry ∧ env_ok one_entry (Write 2 "h" "/u" ["b"%byte] 1) ∧
  to_uint 1 <= space (cache one_entry) ∧
  write_cache (Some one_entry) 2 "h" "/u" ["b"%byte] 1 = Ok (1, Some two_entries) ∧
  count_key "h" "/u" (blocks two_entries) = S (count_key "h" "/u" (blocks one_entry)).
Proof.
  assert (Hle : to_uint 1 <= space (cache one_entry)) by (vm_compute; discriminate).
  split; [exact miss_first_one_entry|].
  split; [exact (proj1 keys_unique_when_written_after_miss 100 100 one_entry
                   miss_first_one_entry)|].
  split; [exact inv_one_entry|]. split; [apply env_ok_one_entry|].
  split; [exact Hle|]. split; [reflexivity|].
  exact (proj2 keys_unique_when_written_after_miss one_entry 2 "h" "/u"
           ["b"%byte] 1 two_entries inv_one_entry (env_ok_one_entry _ _ _)
           Hle eq_refl).
Defined.

End CacheSpec.

(** ** Properties of the allocator *)

Module MmSpec.

Import CInt Mm MmProps MmExamples.

(** *** Words in a byte memory *)








#[local] Arguments load_le : simpl never.
#[local] Arguments store_le : simpl never.




(** *** Headers *)





















(** Scenarios A and C of the specification, and the heap checker on them:
    [malloc(16)] returns a block of 24 bytes; after
    [a = malloc(32); b = malloc(32); c = malloc(32); free(b)],
    [realloc(a, 64)] returns [a]. *)
Example scenario_split_on_alloc :
  value_of (malloc fresh_heap 16) = Ok 65656 ∧
  GET_SIZE (state_of (malloc fresh_heap 16)) (HDRP 65656) = 24 ∧
  check_heap_blocks (state_of (malloc fresh_heap 16)) = Ok false.
Proof. by vm_compute. Qed.

Example scenario_realloc_in_place :
  check_heap_blocks three_blocks = Ok false ∧
  value_of (realloc three_blocks 65656 64) = Ok 65656 ∧
  check_heap_blocks (state_of (realloc three_blocks 65656 64)) = Ok false.
Proof. by vm_compute. Qed.

(** C2 fails on the code: when [malloc] returns null for a request of
    [total_size > 0] bytes, [calloc] passes the null pointer to [memset]. *)
Lemma calloc_null_memset s nmemb size s' :
  to_size_t (nmemb * size) ≠ 0 → 0 < mem_heap_lo s' →
  malloc s (to_size_t (nmemb * size)) = Ok (NULL, s') →
  calloc s nmemb size = Fault.
Proof.
  intros Hn Hlo Hm. unfold calloc. rewrite Hm. simpl. unfold memset.
  destruct (Z.eqb_spec (to_size_t (nmemb * size)) 0); [done|].
  unfold in_range. destruct (Z.leb_spec (mem_heap_lo s') NULL); [|done].
  unfold NULL in *. lia.
Qed.

(** C2, on a heap that cannot grow: [malloc(200)] returns null and
    [calloc(1, 200)] faults in [memset] instead of returning null. *)
Theorem calloc_out_of_memory :
  value_of (malloc full_heap 200) = Ok NULL ∧
  calloc full_heap 1 200 = Fault.
Proof.
  assert (Hm : ∃ s', malloc full_heap (to_size_t (1 * 200)) = Ok (NULL, s') ∧
                     0 < mem_heap_lo s').
  { eexists. split; [vm_compute; reflexivity|]. by vm_compute. }
  destruct Hm as (s' & Hm & Hlo). split.
  - change 200 with (to_size_t (1 * 200)). by rewrite Hm.
  - by apply (calloc_null_memset _ _ _ s').
Qed.

(** C5, after [mm_init]: [malloc(2^64 - 1)] computes the adjusted size 8,
    takes 8 bytes off the free block and returns them as a block; the walk
    of [mm_checkheap], which found no error before, reports a block below
    the minimum size. *)
Theorem malloc_size_max_breaks_heap :
  fst (mm_init boot) = 0 ∧
  check_heap_blocks fresh_heap = Ok false ∧
  adjust_malloc 18446744073709551615 = 8 ∧
  value_of (malloc fresh_heap 18446744073709551615) = Ok 65656 ∧
  GET_SIZE (state_of (malloc fresh_heap 18446744073709551615)) (HDRP 65656) = 8 ∧
  check_block (state_of (malloc fresh_heap 18446744073709551615)) 65656 = true ∧
  check_heap_blocks (state_of (malloc fresh_heap 18446744073709551615)) = Ok true.
Proof. by vm_compute. Qed.

(** C7, on the block [p] of [malloc(100)] (block size 112) that holds the
    byte [170] at [p[0]]: [realloc(p, 2^64 - 1)] computes the new size 8,
    splits the block in place and returns [p], whose first payload byte is
    now part of the footer it wrote. *)
Theorem realloc_size_max_clobbers_payload :
  GET_SIZE one_block (HDRP 65656) = 112 ∧
  mem one_block 65656 = 170 ∧
  adjust_realloc 18446744073709551615 = 8 ∧
  value_of (realloc one_block 65656 18446744073709551615) = Ok 65656 ∧
  mem (state_of (realloc one_block 65656 18446744073709551615)) 65656 = 9.
Proof. by vm_compute. Qed.

End MmSpec.

(** ** More properties of the cache: list structure, capacity, LRU order
    and the edge cases of [write_cache] *)

Module CacheLaws.
Import CInt Cache CacheProps CacheExamples CacheMore CacheSpec.

Lemma reachable_good M mo w :
  0 <= M <= INT_MAX → reachable M mo w → good M w.
Proof.
  intros HM Hreach.
  induction Hreach as [w Hinit|w c r w' Hreach IH Henv Hrun].
  - by eapply good_init.
  - destruct c as [h u buffer|p h u buffer len]; unfold run in Hrun.
    + destruct (read_cache (Some w) h u buffer) as [[[r0 c0] b0]| | |] eqn:Hread;
        simpl in Hrun; try done.
      injection Hrun as -> ->. by eapply good_read.
    + by eapply good_write.
Qed.

Lemma reachable_inv_mo M mo w :
  reachable M mo w → inv w ∧ max_object_size (cache w) = to_uint mo.
Proof.
  intros Hreach.
  induction Hreach as [w Hinit|w c r w' Hreach [IH IHmo] Henv Hrun].
  - pose proof (wf_init _ _ _ _ Hinit) as Hw.
    unfold init_cache in Hinit. injection Hinit as <-. split; [|done].
    eapply inv_of_wf; [done|by constructor|]. simpl. apply to_uint_range.
  - destruct c as [h u buffer|p h u buffer len]; unfold run in Hrun.
    + destruct (read_cache (Some w) h u buffer) as [[[r0 c0] b0]| | |] eqn:Hread;
        simpl in Hrun; try done.
      injection Hrun as -> ->.
      destruct (read_contents _ _ _ _ _ _ _ IH Hread) as [Hi _]. split; [done|].
      pose proof IH as [Hw Hq Hsp].
      destruct (read_cache_spec w _ h u buffer Hw Hq)
        as [[Hr _]|(l1 & a & l2 & b & Hl & Hb & Hk & Hfirst & Hr)].
      * rewrite Hr in Hread. by injection Hread as _ <- _.
      * rewrite Hr in Hread. rewrite Hl in Hw.
        destruct (memcpy buffer (payload b) (payload_size b)); simpl in Hread; try done.
        destruct (lru_update_spec _ _ _ _ _ Hw Hb Hq Hsp)
          as (w'' & Hlru & Hw' & Hq' & Hsp' & Hmo' & Hd & Hdom).
        rewrite Hlru in Hread. simpl in Hread. injection Hread as _ <- _.
        by rewrite Hmo'.
    + destruct (write_contents _ _ _ _ _ _ _ _ IH Henv Hrun) as [Hi _].
      split; [done|]. destruct Henv as [Hlen Hm]. pose proof IH as [Hw Hq Hsp].
      destruct (write_cache_spec w _ p h u buffer len Hw Hq Hsp Hm)
        as [[_ Hr]|[(_ & Hr & _)|
             (l' & ev & w1 & Hmo & Hl & Hroom & Hw1 & Hle & Hsp1 & [Hfr Hfr'] & Hcases)]].
      * rewrite Hr in Hrun. by injection Hrun as _ <-.
      * by rewrite Hr in Hrun.
      * destruct (make_room_spec w _ len Hw Hq Hsp) as
          [(l0 & ev0 & w0 & _ & Hroom0 & _ & _ & _ & Hmo0 & _)|[Hroom0 _]];
          rewrite Hroom in Hroom0; [injection Hroom0 as <-|done].
        destruct Hcases as [[-> Hr]|[(_ & _ & Hr)|(Hp & Hbuf & w'' & b & Hr & Hw'' & Hq'' & Hsp'' & Hmo'' & _)]];
          rewrite Hr in Hrun; try done; injection Hrun as _ <-; simpl; congruence.
Qed.


(** What a [write_cache] that returns has done, in terms of the state
    [w1] in which it called [create_block]. *)
Lemma write_result w p h u buffer len r w' :
  inv w → env_ok w (Write p h u buffer len) →
  write_cache (Some w) p h u buffer len = Ok (r, Some w') →
  (max_object_size (cache w) < to_uint len ∧ r = -1 ∧ w' = w) ∨
  (to_uint len <= max_object_size (cache w) ∧
   ∃ w1, make_room w len = Ok w1 ∧ to_uint len <= space (cache w1) ∧
     max_object_size (cache w') = max_object_size (cache w) ∧
     ((p = NULL ∧ r = -1 ∧ contents w' = contents w1 ∧
       space (cache w') = space (cache w1)) ∨
      (p ≠ NULL ∧ r = 1 ∧ (Z.to_nat (to_size_t len) ≤ length buffer)%nat ∧
       contents w' = (h, u, len, take (Z.to_nat (to_size_t len)) buffer) :: contents w1 ∧
       space (cache w') = to_uint (space (cache w1) - len)))).
Proof.
  intros Hi [Hlen Hm] Hwrite. pose proof Hi as [Hw Hq Hsp].
  destruct (write_cache_spec w _ p h u buffer len Hw Hq Hsp Hm)
    as [[Hlt Hr]|[(_ & Hr & _)|
         (l' & ev & w1 & Hmo & Hl & Hroom & Hw1 & Hle & Hsp1 & [Hfr Hfr'] & Hcases)]].
  { rewrite Hr in Hwrite. injection Hwrite as <- <-. by left. }
  { by rewrite Hr in Hwrite. }
  right. split; [done|]. exists w1. split; [done|]. split; [done|].
  destruct (make_room_spec w _ len Hw Hq Hsp) as
    [(l0 & ev0 & w0 & _ & Hroom0 & _ & _ & _ & Hmo0 & _)|[Hroom0 _]];
    rewrite Hroom in Hroom0; [injection Hroom0 as <-|done].
  destruct Hcases as [[-> Hr]|[(_ & _ & Hr)|(Hp & Hbuf & w'' & b & Hr & Hw'' & Hq'' & Hsp'' & Hmo'' & Hb & Hdb & Hd'')]].
  - rewrite Hr in Hwrite. injection Hwrite as <- <-. split; [done|]. left.
    assert (Hw1' : wf (with_cache (set_mutex_write 1) w1) l')
      by (by apply wf_with_cache).
    repeat split; try done.
  - by rewrite Hr in Hwrite.
  - rewrite Hr in Hwrite. injection Hwrite as <- <-. split; [done|]. right.
    repeat split; try done.
    assert (Hpl : p ∉ l') by (apply NoDup_cons, Hw'').
    rewrite (contents_wf _ _ Hw''), (contents_wf _ _ Hw1).
    change (p :: l') with ([p] ++ l'). rewrite datas_app.
    unfold datas at 1. simpl. rewrite Hb. simpl. rewrite Hdb. f_equal.
    apply datas_ext. intros q Hq'. apply Hd''. by intros ->.
Qed.

Lemma total_app ds1 ds2 : total (ds1 ++ ds2) = total ds1 + total ds2.
Proof. unfold total. induction ds1 as [|d ds1 IH]; simpl; lia. Qed.

Lemma good_accounted M w : good M w → accounted M w.
Proof. intros [[? ? ?] ? ?]. by constructor. Qed.

Lemma total_contents w : total (contents w) = sum_payload (blocks w).
Proof.
  unfold total, contents, sum_payload.
  induction (blocks w) as [|b l IH]; simpl; [done|]. by rewrite IH.
Qed.

Lemma total_nonneg ds : Forall (fun d => 0 <= d.1.2) ds → 0 <= total ds.
Proof. induction 1; simpl; lia. Qed.

Lemma contents_nonneg w :
  sizes_nonneg w → Forall (fun d => 0 <= d.1.2) (contents w).
Proof. unfold sizes_nonneg, contents. intros H. by apply Forall_fmap. Qed.

(** The eviction loop on an accounted cache frees the shortest suffix of
    the list that makes room for [len] bytes. *)
Lemma evict_loop_minimal M w len fuel :
  accounted M w → M <= INT_MAX → 0 <= len <= M →
  (length (chain w) < fuel)%nat →
  ∃ w' evicted, evict_loop fuel w len = Ok w' ∧
    contents w = contents w' ++ evicted ∧
    space (cache w') = space (cache w) + total evicted ∧
    len <= space (cache w') ∧ accounted M w' ∧
    (∀ e ev', evicted = e :: ev' → space (cache w) + total ev' < len).
Proof.
  intros Hacc HM Hlen. revert w Hacc.
  assert (Hlenu : to_uint len = len).
  { apply to_uint_id. unfold is_uint, UINT_MAX, INT_MAX in *. lia. }
  induction fuel as [|fuel IH]; intros w Hacc Hf; [lia|]. simpl.
  rewrite Hlenu.
  destruct (Z.ltb_spec (space (cache w)) len) as [Hlt|Hge].
  - destruct (accounted_eviction _ _ _ Hacc HM Hlen Hlt)
      as (a & b & w1 & Hch & Hb & Hco & -> & Hsp & Hacc1).
    simpl. rewrite Hch, length_app in Hf. simpl in Hf.
    destruct (IH w1 Hacc1 ltac:(lia))
      as (w' & ev & -> & Hco' & Hsp' & Hle & Hacc' & Hmin).
    exists w', (ev ++ [data b]). split; [done|]. split; [|split; [|split; [done|split; [done|]]]].
    + by rewrite Hco, Hco', app_assoc.
    + rewrite Hsp', Hsp, total_app. unfold total at 3. simpl. lia.
    + intros e ev' Heq. destruct ev as [|e0 ev0]; simpl in Heq.
      * injection Heq as <- <-. unfold total. simpl. lia.
      * injection Heq as <- <-. specialize (Hmin _ _ eq_refl).
        rewrite total_app. unfold total at 2. simpl. rewrite Hsp in Hmin.
        unfold data. simpl. lia.
  - exists w, []. rewrite app_nil_r. unfold total. simpl. split; [done|].
    split; [done|]. split; [lia|]. split; [lia|]. split; [done|]. done.
Qed.

Lemma accounted_gate M w v :
  accounted M w → accounted M (with_cache (set_mutex_write v) w).
Proof.
  intros [Hw Hsp Hacc Hnn].
  assert (Hw' : wf (with_cache (set_mutex_write v) w) (chain w))
    by (by apply wf_with_cache).
  assert (Hch : chain (with_cache (set_mutex_write v) w) = chain w)
    by (by apply wf_chain).
  constructor.
  - by rewrite Hch.
  - done.
  - unfold accounting, blocks in *. by rewrite Hch.
  - unfold sizes_nonneg, blocks in *. by rewrite Hch.
Qed.

Lemma make_room_minimal M w len :
  good M w → M <= INT_MAX → 0 <= len <= M →
  ∃ w1 evicted, make_room w len = Ok w1 ∧
    contents w = contents w1 ++ evicted ∧
    space (cache w1) = space (cache w) + total evicted ∧
    len <= space (cache w1) ∧ accounted M w1 ∧ writing (cache w1) ∧
    max_object_size (cache w1) = max_object_size (cache w) ∧
    (∀ e ev', evicted = e :: ev' → space (cache w) + total ev' < len).
Proof.
  intros Hg HM Hlen. pose proof Hg as [[Hw Hq Hsp] _ _].
  pose proof (accounted_gate _ _ 0 (good_accounted _ _ Hg)) as Hacc0.
  set (w0 := with_cache (set_mutex_write 0) w) in *.
  assert (Hmk : make_room w len = evict_loop (enough w0) w0 len).
  { unfold make_room, P. destruct Hq as [_ _ Hmw]. rewrite Hmw. simpl.
    by subst w0. }
  assert (Hfuel : (length (chain w0) < enough w0)%nat).
  { destruct Hacc0 as [[_ Hs Hnd] _ _ _]. apply seg_length in Hs; [|done].
    unfold enough. lia. }
  destruct (evict_loop_minimal _ _ _ _ Hacc0 HM Hlen Hfuel)
    as (w1 & ev & Hev & Hco & Hsp1 & Hle & Hacc1 & Hmin).
  exists w1, ev. rewrite Hmk. split; [done|].
  assert (Hc0 : contents w0 = contents w).
  { rewrite (contents_wf w (chain w)) by done.
    by rewrite (contents_wf w0 (chain w)) by (by apply wf_with_cache). }
  rewrite <- Hc0.
  destruct (make_room_spec w _ len Hw Hq Hsp) as
    [(l0 & ev0 & w0' & _ & Hroom0 & _ & _ & _ & Hmo0 & Hwr & _)|[Hroom0 _]];
    rewrite Hmk, Hev in Hroom0; [injection Hroom0 as <-|done].
  split; [done|]. split; [done|]. split; [done|]. split; [done|].
  split; [done|]. split; [done|]. exact Hmin.
Qed.


Lemma mo_id mo : 0 <= mo <= INT_MAX → to_uint mo = mo.
Proof.
  intros H. apply to_uint_id. unfold is_uint, UINT_MAX, INT_MAX in *. lia.
Qed.

Lemma entry_ok_new mo h u buffer len :
  mo <= INT_MAX → is_int len → to_uint len <= mo →
  (Z.to_nat (to_size_t len) ≤ length buffer)%nat →
  0 <= len ∧ to_uint len = len ∧ to_size_t len = len ∧
  entry_ok mo (h, u, len, take (Z.to_nat (to_size_t len)) buffer).
Proof.
  intros Hmo Hlen Hle Hbuf.
  destruct (int_of_small_uint len mo Hlen Hle Hmo) as [H0 Hu].
  assert (Hs : to_size_t len = len) by (by apply to_size_t_small).
  split; [done|]. split; [done|]. split; [done|].
  unfold entry_ok. simpl. rewrite Hs in *. split; [lia|].
  rewrite length_take. lia.
Qed.

Lemma reachable_stored_ok M mo w :
  0 <= mo <= INT_MAX → reachable M mo w → stored_ok w.
Proof.
  intros Hmo Hreach.
  induction Hreach as [w Hinit|w c r w' Hreach IH Henv Hrun].
  - unfold init_cache in Hinit. injection Hinit as <-. constructor.
  - destruct (reachable_inv_mo _ _ _ Hreach) as [Hi Hmow].
    assert (Hreach' : reachable M mo w') by (by eapply reachable_call).
    destruct (reachable_inv_mo _ _ _ Hreach') as [Hi' Hmow'].
    unfold stored_ok in *. rewrite Hmow in IH. rewrite Hmow'.
    destruct c as [h u buffer|p h u buffer len]; unfold run in Hrun.
    + destruct (read_cache (Some w) h u buffer) as [[[r0 c0] b0]| | |] eqn:Hread;
        simpl in Hrun; try done.
      injection Hrun as -> ->.
      destruct (read_contents _ _ _ _ _ _ _ Hi Hread)
        as [_ [(_ & -> & _)|(ds1 & d & ds2 & Hco & _ & _ & Hco' & _)]]; [done|].
      rewrite Hco in IH. rewrite Hco'.
      apply Forall_app in IH as [H1 H2]. apply Forall_cons in H2 as [Hd H2].
      apply Forall_cons. split; [done|]. by apply Forall_app.
    + pose proof Henv as [Hlen _].
      destruct (write_result _ _ _ _ _ _ _ _ Hi Henv Hrun)
        as [(_ & _ & ->)|(Hle & w1 & Hroom & Hsp1 & _ & Hcases)]; [done|].
      pose proof Hi as [Hw Hq Hsp].
      destruct (make_room_spec w _ len Hw Hq Hsp) as
        [(l' & ev & w0 & Hl & Hroom0 & Hw1 & _ & _ & _ & _ & [Hfr Hfr'] & _)|[Hroom0 _]];
        rewrite Hroom in Hroom0; [injection Hroom0 as <-|done].
      assert (Hnd : NoDup (l' ++ ev)) by (rewrite <- Hl; apply Hw).
      assert (Hkept : Forall (entry_ok (to_uint mo)) (contents w1)).
      { rewrite (contents_wf _ _ Hw), Hl, datas_app in IH.
        apply Forall_app in IH as [IH _].
        rewrite (contents_wf _ _ Hw1).
        rewrite (datas_ext (store w) (store w1)); [done|].
        intros q Hq'. apply Hfr'. by eapply disjoint_of_nodup_app. }
      destruct Hcases as [(_ & _ & -> & _)|(_ & _ & Hbuf & -> & _)]; [done|].
      apply Forall_cons. split; [|done].
      rewrite Hmow in Hle.
      apply entry_ok_new; try done. rewrite mo_id by done. lia.
Qed.

Lemma seg_all_blocks (st : gmap Z cache_block) prev l nxt :
  seg st prev l nxt → length (omap (fun p => st !! p) l) = length l.
Proof.
  revert prev. induction l as [|a l IH]; intros prev; simpl; [done|].
  intros (_ & b & Hb & _ & _ & Hs). rewrite Hb. simpl. f_equal. by eapply IH.
Qed.

(** X1. After [init_cache] and any calls of [read_cache] and [write_cache]
    that returned, the blocks form a doubly linked list from [root]
    without repetition, no reader is counted, both semaphores are free,
    and [max_object_size] is the one given to [init_cache]. *)
Theorem reachable_cache_well_formed (M mo : Z) (w : world) :
  reachable M mo w →
  inv w ∧ length (blocks w) = length (chain w) ∧
  max_object_size (cache w) = to_uint mo.
Proof.
  intros Hreach. destruct (reachable_inv_mo _ _ _ Hreach) as [Hi Hmo].
  split; [done|]. split; [|done].
  destruct Hi as [[_ Hs _] _ _]. unfold blocks. by eapply seg_all_blocks.
Qed.

(** X2. The cache never holds more than [max_cache_size] bytes: in every
    state reached from [init_cache(max_cache_size, _)] the payload sizes
    are not negative and add up to at most [max_cache_size]. *)
Theorem cache_never_over_capacity (M mo : Z) (w : world) :
  0 <= M <= INT_MAX → reachable M mo w →
  Forall (fun b => 0 <= payload_size b) (blocks w) ∧
  0 <= sum_payload (blocks w) <= M ∧ 0 <= space (cache w) <= M.
Proof.
  intros HM Hreach.
  destruct (reachable_good _ _ _ HM Hreach) as [[_ _ Hsp] Hacc Hnn].
  split; [done|]. unfold accounting in Hacc.
  pose proof (total_nonneg _ (contents_nonneg _ Hnn)) as Ht.
  rewrite total_contents in Ht. unfold is_uint in Hsp. lia.
Qed.

(** X3. A [read_cache] that hits copies the payload of the most recently
    used entry with the key to the front of the buffer, returns its size,
    and moves that entry to the head of the list; the other entries keep
    their order and [space] does not change. *)
Theorem read_hit_moves_to_front (M mo : Z) (w : world) (h u : string)
    (buffer : list byte) ds1 d ds2 :
  0 <= mo <= INT_MAX → reachable M mo w →
  contents w = ds1 ++ d :: ds2 → dhas_key h u d = true →
  Forall (fun d' => dhas_key h u d' = false) ds1 →
  (Z.to_nat d.1.2 ≤ length buffer)%nat →
  ∃ w', read_cache (Some w) h u buffer
        = Ok (d.1.2, Some w', d.2 ++ drop (Z.to_nat d.1.2) buffer) ∧
        contents w' = d :: ds1 ++ ds2 ∧
        space (cache w') = space (cache w).
Proof.
  intros Hmo Hreach Hco Hk Hfirst Hbuf.
  destruct (reachable_inv_mo _ _ _ Hreach) as [Hi Hmow].
  pose proof (reachable_stored_ok _ _ _ Hmo Hreach) as Hst.
  unfold stored_ok in Hst. rewrite Hco in Hst.
  apply Forall_app in Hst as [_ Hst]. apply Forall_cons in Hst as [[Hd0 Hdl] _].
  pose proof Hi as [Hw Hq Hsp].
  destruct (read_cache_spec w _ h u buffer Hw Hq)
    as [[Hr Hmiss]|(l1 & a & l2 & b & Hl & Hb & Hkb & Hfst & Hr)].
  { exfalso. pose proof (datas_no_key _ _ _ _ Hmiss) as Hno.
    rewrite <- (contents_wf _ _ Hw), Hco in Hno.
    apply Forall_app in Hno as [_ Hno]. apply Forall_cons in Hno as [Hno _].
    congruence. }
  rewrite Hl in Hw.
  (* the entry found is [d] *)
  assert (Hco2 : contents w = datas (store w) l1 ++ data b :: datas (store w) l2).
  { rewrite (contents_wf _ _ Hw), datas_app. unfold datas at 2. simpl.
    by rewrite Hb. }
  pose proof (datas_no_key _ _ _ _ Hfst) as Hno1.
  assert (Hsame : ds1 = datas (store w) l1 ∧ d = data b ∧ ds2 = datas (store w) l2).
  { rewrite Hco in Hco2. clear -Hco2 Hfirst Hno1 Hk Hkb.
    rewrite has_key_data in Hkb.
    revert Hco2 Hfirst Hno1. generalize (datas (store w) l1) as es1.
    induction ds1 as [|x ds1 IH]; intros [|y es1] Heq Hf1 Hf2; simpl in Heq.
    - by injection Heq as -> ->.
    - injection Heq as -> _. apply Forall_cons in Hf2 as [Hy _]. congruence.
    - injection Heq as -> _. apply Forall_cons in Hf1 as [Hx _]. congruence.
    - injection Heq as -> Heq. apply Forall_cons in Hf1 as [_ Hf1].
      apply Forall_cons in Hf2 as [_ Hf2].
      destruct (IH _ Heq Hf1 Hf2) as (-> & -> & ->). done. }
  destruct Hsame as (-> & -> & ->).
  unfold data in Hd0, Hdl, Hbuf |- *. cbn [fst snd] in Hd0, Hdl, Hbuf |- *.
  assert (Hts : to_size_t (payload_size b) = payload_size b).
  { rewrite Hmow, mo_id in Hd0 by done. apply to_size_t_small; [lia|].
    unfold is_int, INT_MIN, INT_MAX in *. lia. }
  assert (Hcp : memcpy buffer (payload b) (payload_size b)
                = Ok (payload b ++ drop (Z.to_nat (payload_size b)) buffer)).
  { unfold memcpy. rewrite Hts, Hdl.
    destruct (Nat.leb_spec (Z.to_nat (payload_size b)) (Z.to_nat (payload_size b)));
      [|lia].
    destruct (Nat.leb_spec (Z.to_nat (payload_size b)) (length buffer)); [|lia].
    simpl. by rewrite <- Hdl, firstn_all. }
  destruct (lru_update_spec _ _ _ _ _ Hw Hb Hq Hsp)
    as (w' & Hlru & Hw' & Hq' & Hsp' & Hmo' & Hd & Hdom).
  exists w'. rewrite Hr, Hcp. simpl. rewrite Hlru. simpl.
  split; [done|]. split; [|done].
  rewrite (contents_wf _ _ Hw').
  rewrite (datas_ext (store w) (store w')) by (intros; apply Hd).
  change (a :: l1 ++ l2) with ([a] ++ l1 ++ l2).
  rewrite !datas_app. unfold datas at 1. simpl. by rewrite Hb.
Qed.


Lemma memcpy_entry mo b buffer :
  mo <= INT_MAX → entry_ok mo (data b) →
  (Z.to_nat (payload_size b) ≤ length buffer)%nat →
  memcpy buffer (payload b) (payload_size b)
  = Ok (payload b ++ drop (Z.to_nat (payload_size b)) buffer).
Proof.
  intros Hmo [Hd0 Hdl] Hbuf. unfold data in Hd0, Hdl. cbn [fst snd] in Hd0, Hdl.
  assert (Hts : to_size_t (payload_size b) = payload_size b).
  { apply to_size_t_small; [lia|]. unfold is_int, INT_MIN, INT_MAX in *. lia. }
  unfold memcpy. rewrite Hts, Hdl.
  destruct (Nat.leb_spec (Z.to_nat (payload_size b)) (Z.to_nat (payload_size b)));
    [|lia].
  destruct (Nat.leb_spec (Z.to_nat (payload_size b)) (length buffer)); [|lia].
  simpl. by rewrite <- Hdl, firstn_all.
Qed.

(** X4. In a cache created with [0 <= max_object_size], [read_cache] with
    a buffer of [max_object_size] bytes always returns, with [-1] or a
    length of at most [max_object_size], and writes no byte outside the
    buffer. *)
Theorem read_cache_fits_buffer (M mo : Z) (w : world) (h u : string)
    (buffer : list byte) :
  0 <= mo <= INT_MAX → reachable M mo w → (Z.to_nat mo ≤ length buffer)%nat →
  ∃ r w' buffer',
    read_cache (Some w) h u buffer = Ok (r, Some w', buffer') ∧
    -1 <= r <= mo ∧ length buffer' = length buffer ∧ reachable M mo w'.
Proof.
  intros Hmo Hreach Hbuf.
  destruct (reachable_inv_mo _ _ _ Hreach) as [Hi Hmow].
  pose proof (reachable_stored_ok _ _ _ Hmo Hreach) as Hst.
  unfold stored_ok in Hst. rewrite Hmow, mo_id in Hst by done.
  pose proof Hi as [Hw Hq Hsp].
  assert (Hstep : ∀ r w' buffer',
            read_cache (Some w) h u buffer = Ok (r, Some w', buffer') →
            reachable M mo w').
  { intros r w' buffer' Hr. apply (reachable_call _ _ w (Read h u buffer) r w');
      [done|done|]. unfold run. by rewrite Hr. }
  destruct (read_cache_spec w _ h u buffer Hw Hq)
    as [[Hr Hmiss]|(l1 & a & l2 & b & Hl & Hb & Hkb & Hfst & Hr)].
  { exists (-1), w, buffer. split; [done|]. split; [lia|]. split; [done|].
    by eapply Hstep. }
  rewrite Hl in Hw.
  assert (Hok : entry_ok mo (data b)).
  { rewrite (contents_wf _ _ Hw), datas_app in Hst.
    apply Forall_app in Hst as [_ Hst]. unfold datas in Hst. simpl in Hst.
    rewrite Hb in Hst. simpl in Hst. by apply Forall_cons in Hst as [Hst _]. }
  pose proof Hok as [Hd0 Hdl]. unfold data in Hd0, Hdl. cbn [fst snd] in Hd0, Hdl.
  assert (Hcp := memcpy_entry mo b buffer ltac:(lia) Hok ltac:(lia)).
  destruct (lru_update_spec _ _ _ _ _ Hw Hb Hq Hsp)
    as (w' & Hlru & Hw' & Hq' & Hsp' & Hmo' & Hd & Hdom).
  assert (Hread : read_cache (Some w) h u buffer
                  = Ok (payload_size b, Some w',
                        payload b ++ drop (Z.to_nat (payload_size b)) buffer)).
  { rewrite Hr, Hcp. simpl. by rewrite Hlru. }
  eexists _, _, _. split; [exact Hread|]. split; [lia|]. split.
  - rewrite length_app, length_drop. lia.
  - by eapply Hstep.
Qed.

Lemma env_ok_fresh w p h u buffer len :
  inv w → is_int len → store w !! p = None →
  env_ok w (Write p h u buffer len).
Proof.
  intros [Hw Hq Hsp] Hlen Hp. split; [done|]. intros w1 Hroom. right.
  destruct (make_room_spec w _ len Hw Hq Hsp) as
    [(l' & ev & w0 & _ & Hroom0 & _ & _ & _ & _ & _ & _ & Hdom)|[Hroom0 _]];
    rewrite Hroom in Hroom0; [injection Hroom0 as <-|done].
  apply not_elem_of_dom. apply not_elem_of_dom in Hp. set_solver.
Qed.

(** X5. [write_cache] of [len] bytes, [0 <= len] at most [max_cache_size]
    and [max_object_size], with [Malloc] handing out a new block, returns
    [1]: the new entry is the first of the list, before the entries that
    were there, less the least recently used ones, freed from the end of
    the list one by one only while [space < len]. *)
Theorem write_evicts_least_recently_used (M mo : Z) (w : world) (p : ptr)
    (h u : string) (buffer : list byte) (len : Z) :
  0 <= M <= INT_MAX → 0 <= mo <= INT_MAX → reachable M mo w →
  0 <= len → len <= M → len <= mo → (Z.to_nat len ≤ length buffer)%nat →
  p ≠ NULL → store w !! p = None →
  ∃ w' kept evicted,
    write_cache (Some w) p h u buffer len = Ok (1, Some w') ∧
    contents w = kept ++ evicted ∧
    contents w' = (h, u, len, take (Z.to_nat len) buffer) :: kept ∧
    space (cache w') = space (cache w) + total evicted - len ∧
    (∀ e ev', evicted = e :: ev' → space (cache w) + total ev' < len).
Proof.
  intros HM Hmo Hreach Hlen0 HlenM Hlenmo Hbuf Hp Hfresh.
  destruct (reachable_inv_mo _ _ _ Hreach) as [Hi Hmow].
  pose proof (reachable_good _ _ _ HM Hreach) as Hg.
  assert (Hint : is_int len) by (unfold is_int, INT_MIN, INT_MAX in *; lia).
  assert (Hlenu : to_uint len = len).
  { apply to_uint_id. unfold is_uint, UINT_MAX, INT_MAX in *. lia. }
  assert (Hlens : to_size_t len = len) by (by apply to_size_t_small).
  pose proof (env_ok_fresh w p h u buffer len Hi Hint Hfresh) as Henv.
  destruct (make_room_minimal M w len Hg ltac:(lia) ltac:(lia))
    as (w1 & ev & Hroom & Hco & Hsp1 & Hle & Hacc1 & Hwr1 & Hmo1 & Hmin).
  pose proof Hi as [Hw Hq Hsp]. destruct Henv as [_ Hm].
  destruct (write_cache_spec w _ p h u buffer len Hw Hq Hsp Hm)
    as [[Hlt _]|[(_ & _ & Hlt)|
         (l' & ev' & w1' & _ & _ & Hroom' & _ & _ & _ & _ & Hcases)]].
  { rewrite Hmow, mo_id, Hlenu in Hlt by done. lia. }
  { destruct (make_room_spec w _ len Hw Hq Hsp) as
      [(? & ? & ? & _ & Hroom0 & _)|[Hroom0 _]].
    - exfalso. destruct Hg as [_ Hacc Hnn].
      apply (accounting_wf _ _ _ Hw) in Hacc. rewrite Hacc, Hlenu in Hlt.
      replace (M - sizes (store w) (chain w) + sizes (store w) (chain w))
        with M in Hlt by lia.
      rewrite to_uint_id in Hlt; [lia|].
      unfold is_uint, UINT_MAX, INT_MAX in *. lia.
    - by rewrite Hroom in Hroom0. }
  rewrite Hroom in Hroom'. injection Hroom' as <-.
  destruct Hcases as [[-> _]|[(_ & Hshort & _)|(_ & _ & w' & b & Hr & _)]];
    [done|rewrite Hlens in Hshort; lia|].
  destruct (write_result _ _ _ _ _ _ _ _ Hi (conj Hint Hm) Hr)
    as [(Hlt & _)|(_ & w1' & Hroom' & _ & _ & [(-> & _)|(_ & _ & _ & Hco' & Hsp')])];
    [rewrite Hmow, mo_id, Hlenu in Hlt by done; lia|done|].
  rewrite Hroom in Hroom'. injection Hroom' as <-.
  exists w', (contents w1), ev. rewrite Hlens in Hco'.
  split; [done|]. split; [done|]. split; [done|]. split; [|done].
  rewrite Hsp', Hsp1. apply to_uint_id.
  destruct Hacc1 as [_ [? ?] _ _]. unfold is_uint, UINT_MAX in *. lia.
Qed.

(** X6. [write_cache] compares [len] with [max_object_size] as unsigned
    numbers before anything else: a negative [len], or one above
    [max_object_size], is refused with [-1] and the cache is not touched
    (whatever the state of its semaphores). *)
Theorem write_rejects_bad_length (w : world) (p : ptr) (h u : string)
    (buffer : list byte) (len : Z) :
  is_int len → max_object_size (cache w) <= INT_MAX →
  len < 0 ∨ max_object_size (cache w) < len →
  write_cache (Some w) p h u buffer len = Ok (-1, Some w).
Proof.
  intros Hint Hmo Hbad. unfold write_cache.
  destruct (Z.ltb_spec (max_object_size (cache w)) (to_uint len)) as [|Hge];
    [done|exfalso].
  unfold to_uint, is_int, INT_MIN, INT_MAX in *.
  destruct (Z.lt_ge_cases len 0) as [Hneg|Hpos].
  - replace (len mod 4294967296) with (len + 4294967296) in Hge; [lia|].
    apply (Z.mod_unique _ _ (-1)); lia.
  - rewrite Z.mod_small in Hge by lia. lia.
Qed.

(** X7. [write_cache] of an object that [max_object_size] admits but that
    is larger than the whole cache evicts every block and then calls
    [eviction] on the empty list, which dereferences the null pointer
    that [get_lru] returns. *)
Theorem write_larger_than_cache_faults (M mo : Z) (w : world) (p : ptr)
    (h u : string) (buffer : list byte) (len : Z) :
  0 <= M <= INT_MAX → 0 <= mo <= INT_MAX → reachable M mo w →
  M < len → len <= mo →
  write_cache (Some w) p h u buffer len = Fault.
Proof.
  intros HM Hmo Hreach HlenM Hlenmo.
  destruct (reachable_inv_mo _ _ _ Hreach) as [Hi Hmow].
  destruct (reachable_good _ _ _ HM Hreach) as [_ Hacc Hnn].
  assert (Hlenu : to_uint len = len).
  { apply to_uint_id. unfold is_uint, UINT_MAX, INT_MAX in *. lia. }
  pose proof Hi as [Hw Hq Hsp].
  apply (accounting_wf _ _ _ Hw) in Hacc.
  pose proof (proj1 (sizes_nonneg_wf _ _ Hw) Hnn) as Hnn'.
  rewrite write_cache_unfold.
  destruct (Z.ltb_spec (max_object_size (cache w)) (to_uint len)) as [Hlt|_].
  { rewrite Hmow, mo_id, Hlenu in Hlt by done. lia. }
  destruct (make_room_spec w _ len Hw Hq Hsp) as
    [(l' & ev & w1 & Hl & _ & _ & Hle & Hsp1 & _)|[-> _]]; [exfalso|done].
  assert (Hev : 0 <= sizes (store w) ev).
  { apply sizes_nonneg_sum. intros a b Ha. apply Hnn'. rewrite Hl. set_solver. }
  assert (Hl' : 0 <= sizes (store w) l').
  { apply sizes_nonneg_sum. intros a b Ha. apply Hnn'. rewrite Hl. set_solver. }
  rewrite Hl, sizes_app in Hacc.
  rewrite Hsp1, Hlenu, to_uint_id in Hle; [lia|].
  unfold is_uint, UINT_MAX, INT_MAX in *. lia.
Qed.

(** X8. When [Malloc] fails in [create_block], [write_cache] returns [-1]
    with the semaphores released, after the eviction loop has run: the
    entries it freed to make room are lost, the others keep their order,
    and [space] has grown by what was freed. *)
Theorem write_malloc_failure_keeps_evictions (M mo : Z) (w : world)
    (h u : string) (buffer : list byte) (len : Z) :
  0 <= M <= INT_MAX → 0 <= mo <= INT_MAX → reachable M mo w →
  0 <= len → len <= M → len <= mo →
  ∃ w' evicted,
    write_cache (Some w) NULL h u buffer len = Ok (-1, Some w') ∧
    contents w = contents w' ++ evicted ∧
    space (cache w') = space (cache w) + total evicted ∧
    (∀ e ev', evicted = e :: ev' → space (cache w) + total ev' < len) ∧
    reachable M mo w'.
Proof.
  intros HM Hmo Hreach Hlen0 HlenM Hlenmo.
  destruct (reachable_inv_mo _ _ _ Hreach) as [Hi Hmow].
  pose proof (reachable_good _ _ _ HM Hreach) as Hg.
  assert (Hint : is_int len) by (unfold is_int, INT_MIN, INT_MAX in *; lia).
  assert (Hlenu : to_uint len = len).
  { apply to_uint_id. unfold is_uint, UINT_MAX, INT_MAX in *. lia. }
  destruct (make_room_minimal M w len Hg ltac:(lia) ltac:(lia))
    as (w1 & ev & Hroom & Hco & Hsp1 & Hle & Hacc1 & Hwr1 & Hmo1 & Hmin).
  assert (Henv : env_ok w (Write NULL h u buffer len)).
  { split; [done|]. intros; by left. }
  assert (Hwrite : write_cache (Some w) NULL h u buffer len
                   = Ok (-1, Some (with_cache (set_mutex_write 1) w1))).
  { rewrite write_cache_unfold.
    destruct (Z.ltb_spec (max_object_size (cache w)) (to_uint len)) as [Hlt|_].
    { rewrite Hmow, mo_id, Hlenu in Hlt by done. lia. }
    rewrite Hroom. simpl. unfold V, with_cache. simpl.
    destruct Hwr1 as [_ _ ->]. done. }
  exists (with_cache (set_mutex_write 1) w1), ev. split; [done|].
  destruct (write_result _ _ _ _ _ _ _ _ Hi Henv Hwrite)
    as [(Hlt & _)|(_ & w1' & Hroom' & _ & _ & [(_ & _ & Hco' & Hsp')|(Hnn & _)])];
    [rewrite Hmow, mo_id, Hlenu in Hlt by done; lia| |done].
  rewrite Hroom in Hroom'. injection Hroom' as <-.
  split; [by rewrite Hco'|]. split; [done|]. split; [done|].
  apply (reachable_call _ _ w (Write NULL h u buffer len) (-1)); done.
Qed.


(** *** The properties on example runs *)

Lemma int_max_100 : 0 <= 100 <= INT_MAX.
Proof. unfold INT_MAX. lia. Defined.

Lemma int_max_2 : 0 <= 2 <= INT_MAX.
Proof. unfold INT_MAX. lia. Defined.

Lemma reachable_one_entry : reachable 100 100 one_entry.
Proof.
  eapply (reachable_call _ _ fresh_cache (Write 1 "h" "/u" ["a"%byte] 1));
    [by apply reachable_init|apply env_ok_fresh_cache|by vm_compute].
Qed.

Lemma reachable_other_entry : reachable 100 100 other_entry.
Proof.
  eapply (reachable_call _ _ one_entry (Write 2 "x" "/y" ["c"%byte] 1));
    [apply reachable_one_entry|apply env_ok_one_entry|by vm_compute].
Qed.

Lemma reachable_small_full : reachable 2 2 small_full.
Proof.
  assert (H0 : reachable 2 2 small_cache) by (by apply reachable_init).
  assert (H1 : reachable 2 2 small_half).
  { eapply (reachable_call _ _ small_cache (Write 1 "a" "/" ["x"%byte] 1));
      [done| |by vm_compute].
    apply env_ok_fresh; [by apply (reachable_inv_mo 2 2)|apply is_int_1|done]. }
  eapply (reachable_call _ _ small_half (Write 2 "b" "/" ["y"%byte] 1));
    [done| |by vm_compute].
  apply env_ok_fresh; [by apply (reachable_inv_mo 2 2)|apply is_int_1|done].
Qed.

Lemma reachable_cache_well_formed_witness :
  reachable 100 100 two_entries ∧
  inv two_entries ∧ length (blocks two_entries) = length (chain two_entries) ∧
  max_object_size (cache two_entries) = to_uint 100.
Proof.
  split; [apply reachable_two_entries|].
  apply (reachable_cache_well_formed 100 100 two_entries reachable_two_entries).
Defined.

Lemma cache_never_over_capacity_witness :
  0 <= 100 <= INT_MAX ∧ reachable 100 100 two_entries ∧
  0 <= sum_payload (blocks two_entries) <= 100.
Proof.
  split; [apply int_max_100|]. split; [apply reachable_two_entries|].
  apply (cache_never_over_capacity 100 100 two_entries int_max_100
           reachable_two_entries).
Defined.

Lemma read_hit_moves_to_front_witness :
  0 <= 100 <= INT_MAX ∧ reachable 100 100 other_entry ∧
  contents other_entry
  = [("x", "/y", 1, ["c"%byte])] ++ ("h", "/u", 1, ["a"%byte]) :: [] ∧
  ∃ w', read_cache (Some other_entry) "h" "/u" ["0"%byte; "0"%byte]
        = Ok (1, Some w', ["a"%byte; "0"%byte]) ∧
        contents w' = [("h", "/u", 1, ["a"%byte]); ("x", "/y", 1, ["c"%byte])].
Proof.
  split; [apply int_max_100|]. split; [apply reachable_other_entry|].
  split; [reflexivity|].
  destruct (read_hit_moves_to_front 100 100 other_entry "h" "/u"
              ["0"%byte; "0"%byte]
              [("x", "/y", 1, ["c"%byte])] ("h", "/u", 1, ["a"%byte]) []
              int_max_100 reachable_other_entry eq_refl eq_refl)
    as (w' & Hr & Hc & _).
  - by repeat constructor.
  - simpl. lia.
  - by exists w'.
Defined.

Lemma read_cache_fits_buffer_witness :
  0 <= 100 <= INT_MAX ∧ reachable 100 100 one_entry ∧
  (Z.to_nat 100 ≤ length (repeat "0"%byte 100))%nat ∧
  ∃ r w' buffer',
    read_cache (Some one_entry) "h" "/u" (repeat "0"%byte 100)
    = Ok (r, Some w', buffer') ∧
    -1 <= r <= 100 ∧ length buffer' = length (repeat "0"%byte 100).
Proof.
  assert (Hb : (Z.to_nat 100 ≤ length (repeat "0"%byte 100))%nat)
    by (vm_compute; lia).
  split; [apply int_max_100|]. split; [apply reachable_one_entry|].
  split; [exact Hb|].
  destruct (read_cache_fits_buffer 100 100 one_entry "h" "/u"
              (repeat "0"%byte 100) int_max_100 reachable_one_entry Hb)
    as (r & w' & buffer' & Hr & Hle & Hlen & _).
  by exists r, w', buffer'.
Defined.

Lemma write_evicts_least_recently_used_witness :
  0 <= 2 <= INT_MAX ∧ reachable 2 2 small_full ∧
  contents small_full = [("b", "/", 1, ["y"%byte]); ("a", "/", 1, ["x"%byte])] ∧
  (Z.to_nat 2 ≤ length ["p"%byte; "q"%byte])%nat ∧
  3 ≠ NULL ∧ store small_full !! 3 = None ∧
  ∃ w' kept evicted,
    write_cache (Some small_full) 3 "c" "/" ["p"%byte; "q"%byte] 2
    = Ok (1, Some w') ∧
    contents small_full = kept ++ evicted ∧
    contents w' = ("c", "/", 2, ["p"%byte; "q"%byte]) :: kept ∧
    space (cache w') = space (cache small_full) + total evicted - 2.
Proof.
  assert (Hb : (Z.to_nat 2 ≤ length ["p"%byte; "q"%byte])%nat) by (simpl; lia).
  split; [apply int_max_2|]. split; [apply reachable_small_full|].
  split; [reflexivity|]. split; [exact Hb|]. split; [done|]. split; [reflexivity|].
  destruct (write_evicts_least_recently_used 2 2 small_full 3 "c" "/"
              ["p"%byte; "q"%byte] 2 int_max_2 int_max_2 reachable_small_full
              ltac:(lia) ltac:(lia) ltac:(lia) Hb ltac:(done) eq_refl)
    as (w' & kept & evicted & Hr & Hco & Hco' & Hsp & _).
  by exists w', kept, evicted.
Defined.

Lemma write_rejects_bad_length_witness :
  is_int (-1) ∧ max_object_size (cache fresh_cache) <= INT_MAX ∧
  write_cache (Some fresh_cache) 1 "h" "/u" [] (-1) = Ok (-1, Some fresh_cache).
Proof.
  assert (H1 : is_int (-1)) by (unfold is_int, INT_MIN, INT_MAX; lia).
  assert (H2 : max_object_size (cache fresh_cache) <= INT_MAX)
    by (unfold INT_MAX; simpl; lia).
  split; [exact H1|]. split; [exact H2|].
  apply (write_rejects_bad_length fresh_cache 1 "h" "/u" [] (-1) H1 H2).
  left. lia.
Defined.

Lemma write_larger_than_cache_faults_witness :
  0 <= 2 <= INT_MAX ∧ 0 <= 100 <= INT_MAX ∧ reachable 2 100 narrow_cache ∧
  write_cache (Some narrow_cache) 1 "h" "/u"
    ["a"%byte; "b"%byte; "c"%byte] 3 = Fault.
Proof.
  assert (Hr : reachable 2 100 narrow_cache) by (by apply reachable_init).
  split; [apply int_max_2|]. split; [apply int_max_100|]. split; [exact Hr|].
  apply (write_larger_than_cache_faults 2 100 narrow_cache 1 "h" "/u"
           ["a"%byte; "b"%byte; "c"%byte] 3 int_max_2 int_max_100 Hr); lia.
Defined.

Lemma write_malloc_failure_keeps_evictions_witness :
  0 <= 2 <= INT_MAX ∧ reachable 2 2 small_full ∧
  ∃ w' evicted,
    write_cache (Some small_full) NULL "c" "/" ["p"%byte; "q"%byte] 2
    = Ok (-1, Some w') ∧
    contents small_full = contents w' ++ evicted ∧
    space (cache w') = space (cache small_full) + total evicted.
Proof.
  split; [apply int_max_2|]. split; [apply reachable_small_full|].
  destruct (write_malloc_failure_keeps_evictions 2 2 small_full "c" "/"
              ["p"%byte; "q"%byte] 2 int_max_2 int_max_2 reachable_small_full
              ltac:(lia) ltac:(lia) ltac:(lia))
    as (w' & evicted & Hr & Hco & Hsp & _).
  by exists w', evicted.
Defined.

End CacheLaws.
